(** * Greedy carpooling matcher: a shallow embedding of [simulation.py]

    The development follows [match_algorithm] and the two statistics
    routines ([export_visualization_data], [print_matching_results]).

    Modelling choices.
    - Python objects live in a store: a driver or passenger is a reference
      ([dref], [pref]) and the store maps every reference to the object's
      current fields.  The pools handed to [match_algorithm] are lists of
      references, so a list may alias one object several times and
      [random.shuffle] permutes references, not objects.
    - Distances, fares and percentages are Python floats; they are carried
      here as exact rationals [Q], so rounding and NaN are outside the
      model.  The great-circle formula needs trigonometry, so [haversine]
      is a parameter of the model: the matcher only ever compares and adds
      the numbers it returns.
    - Schedules, identifiers and capacities are Python ints, hence [Z].
    - The f-string messages of the rejection analysis are kept as a
      constructor together with the numbers they print.
    - [random.shuffle] is the library's Fisher-Yates loop over an abstract
      generator state with its [randbelow] draw. *)

From Stdlib Require Import String PrimFloat.
From Stdlib Require Import List ZArith QArith Qabs Bool Lia Permutation Sorted Arith.
Import ListNotations.

Local Open Scope Z_scope.

(** ** 1. Configuration and constants *)

Definition SEARCH_RADIUS_KM : Q := 1.
Definition MAX_CAPACITY : Z := 4.
Definition PRICE_BASE : Z := 100.
Definition MARKUP_PERCENT : Q := 20 # 100.

Definition coord : Type := (Q * Q)%type.

Definition dref : Type := nat.
Definition pref : Type := nat.

(** Python's [x > y] and [x < y] on numbers. *)
Definition Qgtb (x y : Q) : bool :=
  match (x ?= y)%Q with Gt => true | _ => false end.

Definition Qltb (x y : Q) : bool :=
  match (x ?= y)%Q with Lt => true | _ => false end.

(** ** 2. Entities *)

(** Of a [User] the model keeps the fields [match_algorithm] and the
    statistics touch; [role], [days], [route_score], [vehicle_type],
    [home_neighborhood] and [work_area] are only ever printed or exported.
    [User.__init__] draws [schedule] with [random.randint(7, 11)]; here the
    constructors take the drawn hour as an argument. *)

(** One dict of [p.rejection_reasons]; the key ['matched'] is absent
    ([None]) until the final pass writes it. *)
Inductive reason_msg : Type :=
| OriginTooFar (dist_origin : Q)
| DestinationTooFar (dist_dest : Q)
| ScheduleMismatch (driver_schedule passenger_schedule : Z).

Module Reason.
Record t : Type := mk {
  driver_id : Z;
  driver_name : string;
  pickup_distance : Q;
  dropoff_distance : Q;
  reasons : list reason_msg;
  is_compatible : bool;
  matched : option bool
}.

Definition set_matched (r : t) (b : bool) : t :=
  mk (driver_id r) (driver_name r) (pickup_distance r) (dropoff_distance r)
     (reasons r) (is_compatible r) (Some b).
End Reason.

Module Driver.
Record t : Type := mk {
  id : Z;
  name : string;
  origin : coord;
  dest : coord;
  schedule : Z;
  capacity : Z;
  passengers : list pref
}.

Definition append_passenger (d : t) (p : pref) : t :=
  mk (id d) (name d) (origin d) (dest d) (schedule d) (capacity d)
     (passengers d ++ [p]).

Definition decr_capacity (d : t) : t :=
  mk (id d) (name d) (origin d) (dest d) (schedule d) (capacity d - 1)
     (passengers d).

(** [Driver.__init__]: a full set of free seats and nobody on board. *)
Definition init (uid : Z) (nm : string) (o dst : coord) (sched : Z) : t :=
  mk uid nm o dst sched MAX_CAPACITY [].
End Driver.

Module Passenger.
Record t : Type := mk {
  id : Z;
  name : string;
  origin : coord;
  dest : coord;
  schedule : Z;
  matched_driver : option dref;
  pickup_distance : option Q;
  dropoff_distance : option Q;
  fare : Q;
  rejection_reasons : list Reason.t
}.

Definition set_match (p : t) (d : dref) (dist_origin dist_dest : Q) : t :=
  mk (id p) (name p) (origin p) (dest p) (schedule p)
     (Some d) (Some dist_origin) (Some dist_dest) (fare p)
     (rejection_reasons p).

Definition set_fare (p : t) (f : Q) : t :=
  mk (id p) (name p) (origin p) (dest p) (schedule p)
     (matched_driver p) (pickup_distance p) (dropoff_distance p) f
     (rejection_reasons p).

Definition set_rejection_reasons (p : t) (l : list Reason.t) : t :=
  mk (id p) (name p) (origin p) (dest p) (schedule p)
     (matched_driver p) (pickup_distance p) (dropoff_distance p) (fare p) l.

(** [Passenger.__init__]. *)
Definition init (uid : Z) (nm : string) (o dst : coord) (sched : Z) : t :=
  mk uid nm o dst sched None None None 0%Q [].
End Passenger.

(** One dict of [match_details]. *)
Module Match.
Record t : Type := mk {
  driver : dref;
  passenger : pref;
  pickup_dist : Q;
  dropoff_dist : Q;
  fare : Q
}.
End Match.

(** ** 3. The object store *)

Record heap : Type := mkHeap {
  drv : dref -> Driver.t;
  psg : pref -> Passenger.t
}.

Definition set_drv (h : heap) (r : dref) (v : Driver.t) : heap :=
  mkHeap (fun x => if Nat.eqb x r then v else drv h x) (psg h).

Definition set_psg (h : heap) (r : pref) (v : Passenger.t) : heap :=
  mkHeap (drv h) (fun x => if Nat.eqb x r then v else psg h x).

(** ** 4. Python list helpers *)

(** [l[:k]] for an int [k]: a negative [k] counts from the end. *)
Definition py_slice_to {A : Type} (l : list A) (k : Z) : list A :=
  if 0 <=? k then firstn (Z.to_nat k) l
  else firstn (length l - Z.to_nat (- k)) l.

Fixpoint set_nth {A : Type} (i : nat) (v : A) (l : list A) : list A :=
  match l, i with
  | [], _ => []
  | _ :: t, O => v :: t
  | x :: t, S i' => x :: set_nth i' v t
  end.

(** [x[i], x[j] = x[j], x[i]]; the indices [random.shuffle] produces are
    always in range, outside it the list is left alone. *)
Definition swap {A : Type} (i j : nat) (l : list A) : list A :=
  match nth_error l i, nth_error l j with
  | Some a, Some b => set_nth j a (set_nth i b l)
  | _, _ => l
  end.

(** [list.sort(key=...)]: a stable sort that only asks [<] of the keys.
    An element moves past exactly the elements with a strictly smaller
    key, so equal keys keep their relative order. *)
Section StableSort.
Context {A : Type} (key : A -> Q).

Fixpoint insert_by_key (x : A) (l : list A) : list A :=
  match l with
  | [] => [x]
  | y :: l' =>
      if Qltb (key y) (key x) then y :: insert_by_key x l'
      else x :: y :: l'
  end.

Fixpoint sort_by_key (l : list A) : list A :=
  match l with
  | [] => []
  | x :: l' => insert_by_key x (sort_by_key l')
  end.
End StableSort.

(** ** 5. The algorithm *)

Definition candidate : Type := (pref * Q * Q)%type.

(** [lambda x: x[1] + x[2]] *)
Definition rank_key (x : candidate) : Q :=
  let '(_, dist_origin, dist_dest) := x in (dist_origin + dist_dest)%Q.

(** [ride_cost = (PRICE_BASE / 4) + (PRICE_BASE * MARKUP_PERCENT)] *)
Definition ride_cost : Q :=
  (inject_Z PRICE_BASE / 4 + inject_Z PRICE_BASE * MARKUP_PERCENT)%Q.

(** The same expression on binary64 numbers, as Python evaluates it;
    [0x1.999999999999ap-3] is the double that the literal [0.20] denotes. *)
Definition ride_cost_binary64 : float :=
  (100 / 4 + 100 * 0x1.999999999999ap-3)%float.

Section Matcher.
Variable haversine : coord -> coord -> Q.

(** The body of the exhaustive pass for one driver and one passenger. *)
Definition analyse (d : Driver.t) (p : Passenger.t) : Reason.t :=
  let dist_origin := haversine (Driver.origin d) (Passenger.origin p) in
  let dist_dest := haversine (Driver.dest d) (Passenger.dest p) in
  let reasons :=
    (if Qgtb dist_origin SEARCH_RADIUS_KM
     then [OriginTooFar dist_origin] else [])
    ++ (if Qgtb dist_dest SEARCH_RADIUS_KM
        then [DestinationTooFar dist_dest] else [])
    ++ (if Z.abs (Driver.schedule d - Passenger.schedule p) >? 1
        then [ScheduleMismatch (Driver.schedule d) (Passenger.schedule p)]
        else []) in
  Reason.mk (Driver.id d) (Driver.name d) dist_origin dist_dest reasons
            (Nat.eqb (length reasons) 0) None.

(** Lines 184-205: every passenger gets one fresh entry per driver, in
    the order of the drivers list as it stands before the shuffle. *)
Definition record_rejections (drivers : list dref) (passengers : list pref)
    (h : heap) : heap :=
  fold_left
    (fun h p =>
       set_psg h p
         (Passenger.set_rejection_reasons (psg h p)
            (map (fun d => analyse (drv h d) (psg h p)) drivers)))
    passengers h.

(** Lines 214-230: the candidate filter of one driver's turn. *)
Fixpoint build_candidates (h : heap) (driver : dref) (passengers : list pref)
    : list candidate :=
  match passengers with
  | [] => []
  | p :: rest =>
      let tail := build_candidates h driver rest in
      match Passenger.matched_driver (psg h p) with
      | Some _ => tail
      | None =>
          let dist_origin :=
            haversine (Driver.origin (drv h driver))
                      (Passenger.origin (psg h p)) in
          if Qgtb dist_origin SEARCH_RADIUS_KM then tail
          else
            let dist_dest :=
              haversine (Driver.dest (drv h driver))
                        (Passenger.dest (psg h p)) in
            if Qgtb dist_dest SEARCH_RADIUS_KM then tail
            else if Z.abs (Driver.schedule (drv h driver)
                           - Passenger.schedule (psg h p)) >? 1
                 then tail
                 else (p, dist_origin, dist_dest) :: tail
      end
  end.

(** Lines 232-235. *)
Definition select_candidates (h : heap) (driver : dref)
    (passengers : list pref) : list candidate :=
  let candidates := sort_by_key rank_key (build_candidates h driver passengers) in
  let slots := Driver.capacity (drv h driver) in
  py_slice_to candidates slots.
End Matcher.

(** Lines 238-246: the store after one accepted candidate. *)
Definition assign_heap (driver : dref) (h : heap) (c : candidate) : heap :=
  let '(p, dist_origin, dist_dest) := c in
  let h := set_psg h p (Passenger.set_match (psg h p) driver dist_origin dist_dest) in
  let h := set_drv h driver (Driver.append_passenger (drv h driver) p) in
  let h := set_drv h driver (Driver.decr_capacity (drv h driver)) in
  set_psg h p (Passenger.set_fare (psg h p) ride_cost).

(** Lines 248-254: the dict appended for it. *)
Definition match_record (driver : dref) (c : candidate) : Match.t :=
  let '(p, dist_origin, dist_dest) := c in
  Match.mk driver p dist_origin dist_dest ride_cost.

Definition assign (driver : dref) (st : heap * list Match.t) (c : candidate)
    : heap * list Match.t :=
  (assign_heap driver (fst st) c, snd st ++ [match_record driver c]).

(** The store change a match record stands for; replaying a prefix of
    [match_details] gives the store as it was after that many
    assignments. *)
Definition apply_match (h : heap) (r : Match.t) : heap :=
  assign_heap (Match.driver r) h
    (Match.passenger r, Match.pickup_dist r, Match.dropoff_dist r).

Definition replay (h : heap) (md : list Match.t) : heap :=
  fold_left apply_match md h.

(** Lines 257-263. *)
Definition refresh_matched (passengers : list pref) (h : heap) : heap :=
  fold_left
    (fun h p =>
       match Passenger.matched_driver (psg h p) with
       | Some d =>
           set_psg h p
             (Passenger.set_rejection_reasons (psg h p)
                (map (fun reason =>
                        Reason.set_matched reason
                          (Reason.driver_id reason =? Driver.id (drv h d)))
                     (Passenger.rejection_reasons (psg h p))))
       | None => h
       end)
    passengers h.

Section Shuffle.
Variable rng : Type.
Variable randbelow : nat -> rng -> nat * rng.

(** [for i in reversed(range(1, len(x))): j = randbelow(i + 1); swap] *)
Fixpoint shuffle_from {A : Type} (i : nat) (s : rng) (x : list A)
    : list A * rng :=
  match i with
  | O => (x, s)
  | S i' =>
      let (j, s') := randbelow (S i) s in
      shuffle_from i' s' (swap i j x)
  end.

Definition shuffle {A : Type} (s : rng) (x : list A) : list A * rng :=
  shuffle_from (length x - 1) s x.
End Shuffle.

(** What a call leaves behind: the returned list, the store, the caller's
    drivers list (shuffled in place) and the generator state. *)
Record outcome (rng : Type) : Type := mkOutcome {
  match_details : list Match.t;
  final_heap : heap;
  drivers_after : list dref;
  rng_after : rng
}.
Arguments mkOutcome {rng}.
Arguments match_details {rng}.
Arguments final_heap {rng}.
Arguments drivers_after {rng}.
Arguments rng_after {rng}.

Section Engine.
Variable haversine : coord -> coord -> Q.
Variable rng : Type.
Variable randbelow : nat -> rng -> nat * rng.

(** Lines 210-254 for one driver. *)
Definition process_driver (passengers : list pref)
    (st : heap * list Match.t) (driver : dref) : heap * list Match.t :=
  if Driver.capacity (drv (fst st) driver) =? 0 then st
  else fold_left (assign driver)
         (select_candidates haversine (fst st) driver passengers) st.

Definition assign_all (order : list dref) (passengers : list pref)
    (h : heap) : heap * list Match.t :=
  fold_left (process_driver passengers) order (h, []).

Definition match_algorithm (s : rng) (drivers : list dref)
    (passengers : list pref) (h : heap) : outcome rng :=
  let h1 := record_rejections haversine drivers passengers h in
  let (order, s') := shuffle rng randbelow s drivers in
  let (h2, md) := assign_all order passengers h1 in
  mkOutcome md (refresh_matched passengers h2) order s'.
End Engine.

(** ** 6. Statistics *)

Inductive exn : Type := ZeroDivisionError.

Inductive result (A : Type) : Type :=
| Ok (a : A)
| Raise (e : exn).
Arguments Ok {A}.
Arguments Raise {A}.

Definition bind {A B : Type} (c : result A) (k : A -> result B) : result B :=
  match c with
  | Ok a => k a
  | Raise e => Raise e
  end.

Notation "x <- c ;; k" := (bind c (fun x => k))
  (at level 61, c at next level, right associativity).

(** Python's [a / b] on numbers. *)
Definition truediv (a b : Q) : result Q :=
  if Qeq_bool b 0 then Raise ZeroDivisionError else Ok (a / b)%Q.

Definition len {A : Type} (l : list A) : Q := inject_Z (Z.of_nat (length l)).

(** [sum(1 for x in l if f x)] *)
Definition count_if {A : Type} (f : A -> bool) (l : list A) : Q :=
  len (filter f l).

Definition is_matched (h : heap) (p : pref) : bool :=
  match Passenger.matched_driver (psg h p) with Some _ => true | None => false end.

Definition seats_taken (h : heap) (d : dref) : Z :=
  Z.of_nat (length (Driver.passengers (drv h d))).

(** The ['statistics'] entry of [export_visualization_data]
    (lines 326-334), evaluated key by key. *)
Record statistics : Type := mkStatistics {
  total_drivers : Q;
  total_passengers : Q;
  matched_passengers : Q;
  full_cars : Q;
  active_cars : Q;
  fleet_occupancy : Q;
  total_revenue : Q
}.

Definition export_statistics (drivers : list dref) (passengers : list pref)
    (h : heap) : result statistics :=
  let total_drivers := len drivers in
  let total_passengers := len passengers in
  let matched_passengers := count_if (is_matched h) passengers in
  let full_cars := count_if (fun d => seats_taken h d =? MAX_CAPACITY) drivers in
  let active_cars := count_if (fun d => seats_taken h d >? 0) drivers in
  q <- truediv
         (fold_right (fun d acc => (inject_Z (seats_taken h d) + acc)%Q) 0%Q drivers)
         (len drivers * inject_Z MAX_CAPACITY)%Q ;;
  let fleet_occupancy := (q * 100)%Q in
  let total_revenue :=
    fold_right (fun p acc => (Passenger.fare (psg h p) + acc)%Q) 0%Q
      (filter (is_matched h) passengers) in
  Ok (mkStatistics total_drivers total_passengers matched_passengers
        full_cars active_cars fleet_occupancy total_revenue).

(** [a/b*100] inside an f-string. *)
Definition percent (a b : Q) : result Q :=
  q <- truediv a b ;; Ok (q * 100)%Q.

(** The numbers [print_matching_results] prints (lines 1532-1563), in
    print order: each line is a count and the percentage next to it. *)
Definition print_matching_results (drivers : list dref) (passengers : list pref)
    (h : heap) : result (list (Q * Q)) :=
  let matched_passengers := filter (is_matched h) passengers in
  let unmatched_passengers := filter (fun p => negb (is_matched h p)) passengers in
  let full_cars := count_if (fun d => seats_taken h d =? MAX_CAPACITY) drivers in
  let cars_with_3 := count_if (fun d => seats_taken h d =? 3) drivers in
  let cars_with_2 := count_if (fun d => seats_taken h d =? 2) drivers in
  let cars_with_1 := count_if (fun d => seats_taken h d =? 1) drivers in
  let empty_cars := count_if (fun d => seats_taken h d =? 0) drivers in
  let active_cars := count_if (fun d => seats_taken h d >? 0) drivers in
  m <- percent (len matched_passengers) (len passengers) ;;
  u <- percent (len unmatched_passengers) (len passengers) ;;
  c4 <- percent full_cars (len drivers) ;;
  c3 <- percent cars_with_3 (len drivers) ;;
  c2 <- percent cars_with_2 (len drivers) ;;
  c1 <- percent cars_with_1 (len drivers) ;;
  c0 <- percent empty_cars (len drivers) ;;
  ac <- percent active_cars (len drivers) ;;
  let total_capacity := (len drivers * inject_Z MAX_CAPACITY)%Q in
  let used_capacity := len matched_passengers in
  fleet_occupancy <-
    (if Qgtb total_capacity 0 then percent used_capacity total_capacity
     else Ok 0%Q) ;;
  Ok [ (len matched_passengers, m); (len unmatched_passengers, u);
       (full_cars, c4); (cars_with_3, c3); (cars_with_2, c2);
       (cars_with_1, c1); (empty_cars, c0); (active_cars, ac);
       (used_capacity, fleet_occupancy) ].

(** ** 7. Concrete instances used to run the model *)

(** A stand-in metric for running examples: taxicab distance on a flat
    grid whose unit is the kilometre.  The theorems below hold for any
    distance function; the examples only need one that evaluates. *)
Definition grid_km (a b : coord) : Q :=
  (Qabs (fst a - fst b) + Qabs (snd a - snd b))%Q.

(** A generator whose state is the list of draws still to come. *)
Definition tape : Type := list nat.

Definition tape_randbelow (n : nat) (s : tape) : nat * tape :=
  match s with
  | [] => (O, [])
  | x :: s' => (Nat.modulo x n, s')
  end.

Definition heap_of (ds : list Driver.t) (ps : list Passenger.t) : heap :=
  mkHeap
    (fun r => nth r ds (Driver.init 0 EmptyString (0, 0)%Q (0, 0)%Q 0))
    (fun r => nth r ps (Passenger.init 0 EmptyString (0, 0)%Q (0, 0)%Q 0)).

Definition run (s : tape) (drivers : list dref) (passengers : list pref)
    (h : heap) : outcome tape :=
  match_algorithm grid_km tape tape_randbelow s drivers passengers h.

(** Two fresh drivers on the same route and six passengers strung along
    it; passenger 5 leaves too late for either driver. *)
Definition town_heap : heap :=
  heap_of
    [ Driver.init 0 "Ali_0" (0, 0)%Q (0, 3)%Q 8;
      Driver.init 1 "Sara_1" (0, 1 # 10)%Q (0, 3)%Q 9 ]
    [ Passenger.init 0 "Reza_0" (0, 3 # 10)%Q (0, 3)%Q 8;
      Passenger.init 1 "Mina_1" (0, 2 # 10)%Q (0, 31 # 10)%Q 9;
      Passenger.init 2 "Amir_2" (1 # 10, 0)%Q (0, 3)%Q 8;
      Passenger.init 3 "Leila_3" (0, 5 # 10)%Q (0, 3)%Q 9;
      Passenger.init 4 "Mehdi_4" (0, 4 # 10)%Q (0, 3)%Q 8;
      Passenger.init 5 "Negar_5" (0, 0)%Q (0, 3)%Q 11 ].

Definition town_drivers : list dref := [0; 1]%nat.
Definition town_passengers : list pref := [0; 1; 2; 3; 4; 5]%nat.

(** The capacity scenario: one driver (0,0) -> (0,1) at 8 with two free
    seats, three passengers 0.9, 0.2 and 0.5 km from the driver's origin,
    all bound for the driver's destination at 8. *)
Definition scenario_driver : Driver.t :=
  Driver.mk 0 "Driver_0" (0, 0)%Q (0, 1)%Q 8 2 [].

Definition scenario_heap : heap :=
  heap_of
    [ scenario_driver ]
    [ Passenger.init 0 "Passenger_0" (0, 9 # 10)%Q (0, 1)%Q 8;
      Passenger.init 1 "Passenger_1" (0, 2 # 10)%Q (0, 1)%Q 8;
      Passenger.init 2 "Passenger_2" (0, 5 # 10)%Q (0, 1)%Q 8 ].

(** One driver at 8 and one passenger at 11 on the very same route. *)
Definition late_heap : heap :=
  heap_of
    [ Driver.init 0 "Driver_0" (0, 0)%Q (0, 1)%Q 8 ]
    [ Passenger.init 0 "Passenger_0" (0, 0)%Q (0, 1)%Q 11 ].

(** Static fields: what [match_algorithm] reads but never writes. *)
Definition driver_static (d : Driver.t) : Z * string * coord * coord * Z :=
  (Driver.id d, Driver.name d, Driver.origin d, Driver.dest d, Driver.schedule d).

Definition passenger_static (p : Passenger.t) : Z * string * coord * coord * Z :=
  (Passenger.id p, Passenger.name p, Passenger.origin p, Passenger.dest p,
   Passenger.schedule p).

Definition same_static (h h' : heap) : Prop :=
  (forall d, driver_static (drv h' d) = driver_static (drv h d)) /\
  (forall p, passenger_static (psg h' p) = passenger_static (psg h p)).

(** ** 8. The earlier versions *)

(** [ver2/simulation.py], [print_matching_results], lines 406-437: for an
    unmatched passenger the report looks for the driver with the nearest
    origin and prints why that driver did not take it. *)
Inductive diagnosis : Type :=
| Unknown
| OriginTooFarBy (dist_origin : Q)
| DestinationTooFarBy (dist_dest : Q)
| ScheduleMismatchOf (driver_schedule passenger_schedule : Z)
| DriverAtFullCapacity
| NoCompatibleDriverFound.

(** [closest_dist] starts at [float('inf')], here [None]. *)
Record closest : Type := mkClosest {
  closest_driver : option dref;
  closest_dist : option Q;
  rejection_reason : diagnosis
}.

Section Versions.
Variable haversine : coord -> coord -> Q.

(** The [if]/[elif] chain of lines 423-432. *)
Definition explain (h : heap) (p : pref) (d : dref) : diagnosis :=
  let dist_origin :=
    haversine (Driver.origin (drv h d)) (Passenger.origin (psg h p)) in
  let dist_dest :=
    haversine (Driver.dest (drv h d)) (Passenger.dest (psg h p)) in
  if Qgtb dist_origin SEARCH_RADIUS_KM then OriginTooFarBy dist_origin
  else if Qgtb dist_dest SEARCH_RADIUS_KM then DestinationTooFarBy dist_dest
  else if Z.abs (Driver.schedule (drv h d) - Passenger.schedule (psg h p)) >? 1
  then ScheduleMismatchOf (Driver.schedule (drv h d))
         (Passenger.schedule (psg h p))
  else if Z.of_nat (length (Driver.passengers (drv h d))) >=? MAX_CAPACITY
  then DriverAtFullCapacity
  else NoCompatibleDriverFound.

(** The body of [for d in drivers] (lines 415-434). *)
Definition diagnose_step (h : heap) (p : pref) (st : closest) (d : dref)
    : closest :=
  let dist_origin :=
    haversine (Driver.origin (drv h d)) (Passenger.origin (psg h p)) in
  if match closest_dist st with
     | None => true
     | Some c => Qltb dist_origin c
     end
  then mkClosest (Some d) (Some dist_origin) (explain h p d)
  else st.

Definition diagnose (h : heap) (drivers : list dref) (p : pref) : closest :=
  fold_left (diagnose_step h p) drivers (mkClosest None None Unknown).

(** [ver1/simulation.py], [match_algorithm], lines 66-121: schedules must
    be equal, nothing but the match itself is stored, nothing is
    returned. *)
Fixpoint build_candidates_v1 (h : heap) (driver : dref)
    (passengers : list pref) : list candidate :=
  match passengers with
  | [] => []
  | p :: rest =>
      let tail := build_candidates_v1 h driver rest in
      match Passenger.matched_driver (psg h p) with
      | Some _ => tail
      | None =>
          let dist_origin :=
            haversine (Driver.origin (drv h driver))
                      (Passenger.origin (psg h p)) in
          if Qgtb dist_origin SEARCH_RADIUS_KM then tail
          else
            let dist_dest :=
              haversine (Driver.dest (drv h driver))
                        (Passenger.dest (psg h p)) in
            if Qgtb dist_dest SEARCH_RADIUS_KM then tail
            else if negb (Driver.schedule (drv h driver)
                          =? Passenger.schedule (psg h p))
                 then tail
                 else (p, dist_origin, dist_dest) :: tail
      end
  end.
End Versions.

Definition set_matched_driver (p : Passenger.t) (d : dref) : Passenger.t :=
  Passenger.mk (Passenger.id p) (Passenger.name p) (Passenger.origin p)
    (Passenger.dest p) (Passenger.schedule p) (Some d)
    (Passenger.pickup_distance p) (Passenger.dropoff_distance p)
    (Passenger.fare p) (Passenger.rejection_reasons p).

(** ver1, lines 112-116. *)
Definition assign_heap_v1 (driver : dref) (h : heap) (c : candidate) : heap :=
  let p := fst (fst c) in
  let h := set_psg h p (set_matched_driver (psg h p) driver) in
  let h := set_drv h driver (Driver.append_passenger (drv h driver) p) in
  set_drv h driver (Driver.decr_capacity (drv h driver)).

Section VersionEngines.
Variable haversine : coord -> coord -> Q.
Variable rng : Type.
Variable randbelow : nat -> rng -> nat * rng.

Definition process_driver_v1 (passengers : list pref) (h : heap)
    (driver : dref) : heap :=
  if Driver.capacity (drv h driver) =? 0 then h
  else
    let candidates :=
      sort_by_key rank_key (build_candidates_v1 haversine h driver passengers) in
    let slots := Driver.capacity (drv h driver) in
    fold_left (assign_heap_v1 driver) (py_slice_to candidates slots) h.

(** The store and the shuffled drivers list ver1 leaves behind. *)
Definition match_algorithm_v1 (s : rng) (drivers : list dref)
    (passengers : list pref) (h : heap) : heap * list dref * rng :=
  let (order, s') := shuffle rng randbelow s drivers in
  (fold_left (process_driver_v1 passengers) order h, order, s').

(** [ver2/simulation.py], [match_algorithm], lines 182-246: the driver
    loop of the current version, line for line, without the two passes
    over the rejection analysis. *)
Definition match_algorithm_v2 (s : rng) (drivers : list dref)
    (passengers : list pref) (h : heap) : outcome rng :=
  let (order, s') := shuffle rng randbelow s drivers in
  let (h2, md) := assign_all haversine order passengers h in
  mkOutcome md h2 order s'.
End VersionEngines.

(** [ver2/simulation.py], [print_pool_details], lines 286-300: the
    schedule distribution.  A dict from hour to count is an association
    list in insertion order. *)
Definition dict : Type := list (Z * Z).

(** [m.get(k, default)] *)
Definition dict_get (m : dict) (k : Z) (default : Z) : Z :=
  match find (fun kv => fst kv =? k) m with
  | Some kv => snd kv
  | None => default
  end.

(** [m[k] = v] *)
Fixpoint dict_set (m : dict) (k v : Z) : dict :=
  match m with
  | [] => [(k, v)]
  | (k', v') :: m' =>
      if k' =? k then (k, v) :: m' else (k', v') :: dict_set m' k v
  end.

Definition dict_keys (m : dict) : list Z := map fst m.

(** [for x in xs: m[x.schedule] = m.get(x.schedule, 0) + 1] *)
Definition count_schedules (schedules : list Z) : dict :=
  fold_left (fun m s => dict_set m s (dict_get m s 0 + 1)) schedules [].

(** [sorted(set(l))]: the distinct elements in ascending order. *)
Fixpoint insert_unique (x : Z) (l : list Z) : list Z :=
  match l with
  | [] => [x]
  | y :: l' =>
      if x <? y then x :: y :: l'
      else if x =? y then y :: l'
      else y :: insert_unique x l'
  end.

Definition sorted_set (l : list Z) : list Z := fold_right insert_unique [] l.

(** The rows printed: hour, drivers at that hour, passengers at that
    hour. *)
Definition schedule_distribution (h : heap) (drivers : list dref)
    (passengers : list pref) : list (Z * Z * Z) :=
  let driver_schedules :=
    count_schedules (map (fun d => Driver.schedule (drv h d)) drivers) in
  let passenger_schedules :=
    count_schedules (map (fun p => Passenger.schedule (psg h p)) passengers) in
  map (fun hour =>
         (hour, dict_get driver_schedules hour 0,
          dict_get passenger_schedules hour 0))
      (sorted_set (dict_keys driver_schedules ++ dict_keys passenger_schedules)).

(** [sum(1 for x in l if x == k)] *)
Definition occurrences (k : Z) (l : list Z) : Z :=
  Z.of_nat (length (filter (fun x => x =? k) l)).

(** [ver2/simulation.py], [print_matching_results], lines 360-381: the
    distance and revenue statistics, both under [if match_details:]. *)



(** [sum(l)] *)
Definition py_sum (l : list Q) : Q := fold_left Qplus l 0%Q.



(** Fare per passenger ([match_details[0]['fare']]), total revenue and
    average revenue per driver. *)
Definition revenue_statistics (drivers : list dref)
    (match_details : list Match.t) : option (result (Q * Q * Q)) :=
  match match_details with
  | [] => None
  | m :: rest =>
      let total_revenue := py_sum (map Match.fare match_details) in
      Some (avg <- truediv total_revenue (len drivers) ;;
            Ok (Match.fare m, total_revenue, avg))
  end.

(** ** 9. Vocabulary of the statements *)

(** The three rules of the compatibility evaluator as the specification
    words them: neither distance exceeds the radius and the schedules
    differ by at most one hour. *)
Definition within_thresholds (haversine : coord -> coord -> Q)
    (d : Driver.t) (p : Passenger.t) : bool :=
  Qle_bool (haversine (Driver.origin d) (Passenger.origin p)) SEARCH_RADIUS_KM
  && Qle_bool (haversine (Driver.dest d) (Passenger.dest p)) SEARCH_RADIUS_KM
  && (Z.abs (Driver.schedule d - Passenger.schedule p) <=? 1).

(** The candidate list as the specification words it: the unmatched
    passengers within the thresholds, in pool order, each with its two
    distances. *)
Definition candidates_spec (haversine : coord -> coord -> Q) (h : heap)
    (driver : dref) (passengers : list pref) : list candidate :=
  map (fun p =>
         (p,
          haversine (Driver.origin (drv h driver)) (Passenger.origin (psg h p)),
          haversine (Driver.dest (drv h driver)) (Passenger.dest (psg h p))))
      (filter (fun p =>
                 negb (is_matched h p)
                 && within_thresholds haversine (drv h driver) (psg h p))
              passengers).

(** The candidates a driver's turn accepts: none when the car is full. *)
Definition turn_selection (haversine : coord -> coord -> Q) (h : heap)
    (driver : dref) (passengers : list pref) : list candidate :=
  if Driver.capacity (drv h driver) =? 0 then []
  else select_candidates haversine h driver passengers.

(** [capacity + len(passengers) == MAX_CAPACITY], with no seat count
    below zero. *)
Definition capacity_invariant (d : Driver.t) : Prop :=
  Driver.capacity d + Z.of_nat (length (Driver.passengers d)) = MAX_CAPACITY
  /\ 0 <= Driver.capacity d.

(** The two stores agree except for the rejection analyses. *)
Definition only_reasons_changed (h h' : heap) : Prop :=
  (forall d, drv h' d = drv h d) /\
  (forall p,
     psg h' p =
     Passenger.set_rejection_reasons (psg h p)
       (Passenger.rejection_reasons (psg h' p))).

(** A match record as the claim reads it off the objects it points to. *)
Definition sound_match (haversine : coord -> coord -> Q) (h : heap)
    (r : Match.t) : Prop :=
  let d := drv h (Match.driver r) in
  let p := psg h (Match.passenger r) in
  Match.pickup_dist r = haversine (Driver.origin d) (Passenger.origin p) /\
  Match.dropoff_dist r = haversine (Driver.dest d) (Passenger.dest p) /\
  (Match.pickup_dist r <= SEARCH_RADIUS_KM)%Q /\
  (Match.dropoff_dist r <= SEARCH_RADIUS_KM)%Q /\
  Z.abs (Driver.schedule d - Passenger.schedule p) <= 1.

(** The passenger of a candidate triple. *)
Definition cand_passenger (c : candidate) : pref := fst (fst c).

(** What the final pass leaves in one passenger's analysis, read off the
    store [h] the pass starts from. *)
Definition refreshed_reasons (h : heap) (p : pref) : list Reason.t :=
  match Passenger.matched_driver (psg h p) with
  | Some d =>
      map (fun reason =>
             Reason.set_matched reason
               (Reason.driver_id reason =? Driver.id (drv h d)))
          (Passenger.rejection_reasons (psg h p))
  | None => Passenger.rejection_reasons (psg h p)
  end.

(** Every assignment of the log hits a passenger that is still unmatched
    at that point of the replay. *)
Definition fresh_log (h1 : heap) (md : list Match.t) : Prop :=
  forall done r rest,
    md = done ++ r :: rest ->
    Passenger.matched_driver (psg (replay h1 done) (Match.passenger r)) = None.

(** The final state of the rejection analysis as the claim words it:
    every entry of every passenger carries the flag, true on the entry of
    the matched driver and false on all others, unmatched passengers
    included. *)
Definition flags_as_claimed (h : heap) (p : pref) : Prop :=
  Forall (fun e =>
            Reason.matched e =
            Some match Passenger.matched_driver (psg h p) with
                 | Some d => Reason.driver_id e =? Driver.id (drv h d)
                 | None => false
                 end)
         (Passenger.rejection_reasons (psg h p)).

(** What the code leaves instead: flags on the entries of matched
    passengers only. *)
Definition flags_as_coded (h : heap) (p : pref) : Prop :=
  match Passenger.matched_driver (psg h p) with
  | Some d =>
      Forall (fun e =>
                Reason.matched e
                = Some (Reason.driver_id e =? Driver.id (drv h d)))
             (Passenger.rejection_reasons (psg h p))
  | None =>
      Forall (fun e => Reason.matched e = None)
             (Passenger.rejection_reasons (psg h p))
  end.

(** "A rejection reason recorded against the driver", as the capacity
    scenario words it: some analysis entry of the passenger lists a
    reason. *)
Definition reason_recorded (h : heap) (p : pref) : Prop :=
  exists e,
    In e (Passenger.rejection_reasons (psg h p)) /\ Reason.reasons e <> [].

Definition scenario_drivers : list dref := [0]%nat.
Definition scenario_passengers : list pref := [1; 2; 0]%nat.

(** [sum(f(x) for x in l)] on ints. *)
Definition sumZ {A : Type} (f : A -> Z) (l : list A) : Z :=
  fold_right (fun x acc => f x + acc) 0 l.

(** A pair ver1 may match: a listed driver and a pool passenger with equal
    schedules and both distances within the radius. *)
Definition good_pair_v1 (haversine : coord -> coord -> Q) (h : heap)
    (ds : list dref) (ps : list pref) (d : dref) (p : pref) : Prop :=
  In d ds /\ In p ps
  /\ Driver.schedule (drv h d) = Passenger.schedule (psg h p)
  /\ (haversine (Driver.origin (drv h d)) (Passenger.origin (psg h p))
      <= SEARCH_RADIUS_KM)%Q
  /\ (haversine (Driver.dest (drv h d)) (Passenger.dest (psg h p))
      <= SEARCH_RADIUS_KM)%Q.

(** * Properties *)

(** ** Comparisons *)

Lemma Qgtb_false_le (x y : Q) : Qgtb x y = false -> (x <= y)%Q.
Proof.
  unfold Qgtb. destruct (Qcompare_spec x y) as [E | L | G]; intros H.
  - rewrite E. apply Qle_refl.
  - apply Qlt_le_weak, L.
  - discriminate H.
Qed.

Lemma Qgtb_true_lt (x y : Q) : Qgtb x y = true -> (y < x)%Q.
Proof.
  unfold Qgtb. destruct (Qcompare_spec x y) as [E | L | G]; intros H;
    try discriminate H.
  exact G.
Qed.

Lemma Qle_Qgtb_false (x y : Q) : (x <= y)%Q -> Qgtb x y = false.
Proof.
  intros L. destruct (Qgtb x y) eqn:G; [ | reflexivity ].
  apply Qgtb_true_lt in G. exfalso. exact (Qlt_not_le _ _ G L).
Qed.

Lemma Qltb_false_le (x y : Q) : Qltb x y = false -> (y <= x)%Q.
Proof.
  unfold Qltb. destruct (Qcompare_spec x y) as [E | L | G]; intros H.
  - rewrite E. apply Qle_refl.
  - discriminate H.
  - apply Qlt_le_weak, G.
Qed.

Lemma Qltb_true_lt (x y : Q) : Qltb x y = true -> (x < y)%Q.
Proof.
  unfold Qltb. destruct (Qcompare_spec x y) as [E | L | G]; intros H;
    try discriminate H.
  exact L.
Qed.

Lemma gtb_false_le (x y : Z) : (x >? y) = false -> x <= y.
Proof. rewrite Z.gtb_ltb. intros H. apply Z.ltb_ge in H. exact H. Qed.

(** ** The store *)

Lemma drv_set_drv (h : heap) (r : dref) (v : Driver.t) (x : dref) :
  drv (set_drv h r v) x = if Nat.eqb x r then v else drv h x.
Proof. reflexivity. Qed.

Lemma psg_set_psg (h : heap) (r : pref) (v : Passenger.t) (x : pref) :
  psg (set_psg h r v) x = if Nat.eqb x r then v else psg h x.
Proof. reflexivity. Qed.

Lemma drv_assign_heap (d : dref) (h : heap) (c : candidate) (x : dref) :
  drv (assign_heap d h c) x =
  if Nat.eqb x d
  then Driver.decr_capacity (Driver.append_passenger (drv h d) (fst (fst c)))
  else drv h x.
Proof.
  destruct c as [[p o] e]. unfold assign_heap. cbn.
  rewrite Nat.eqb_refl. destruct (Nat.eqb x d); reflexivity.
Qed.

Lemma psg_assign_heap (d : dref) (h : heap) (c : candidate) (x : pref) :
  psg (assign_heap d h c) x =
  if Nat.eqb x (fst (fst c))
  then Passenger.set_fare
         (Passenger.set_match (psg h (fst (fst c))) d (snd (fst c)) (snd c))
         ride_cost
  else psg h x.
Proof.
  destruct c as [[p o] e]. unfold assign_heap. cbn.
  rewrite Nat.eqb_refl. destruct (Nat.eqb x p); reflexivity.
Qed.

Lemma same_static_refl (h : heap) : same_static h h.
Proof. split; reflexivity. Qed.

Lemma same_static_trans (h1 h2 h3 : heap) :
  same_static h1 h2 -> same_static h2 h3 -> same_static h1 h3.
Proof.
  intros [D1 P1] [D2 P2]. split; intros x.
  - rewrite D2. apply D1.
  - rewrite P2. apply P1.
Qed.

Lemma assign_heap_static (d : dref) (h : heap) (c : candidate) :
  same_static h (assign_heap d h c).
Proof.
  split; intros x.
  - rewrite drv_assign_heap. destruct (Nat.eqb x d) eqn:E; [ | reflexivity ].
    apply Nat.eqb_eq in E. subst x. reflexivity.
  - rewrite psg_assign_heap.
    destruct (Nat.eqb x (fst (fst c))) eqn:E; [ | reflexivity ].
    apply Nat.eqb_eq in E. subst x. reflexivity.
Qed.

Lemma fold_assign_heap_static (d : dref) (sel : list candidate) (h : heap) :
  same_static h (fold_left (assign_heap d) sel h).
Proof.
  revert h. induction sel as [ | c sel IH ]; intros h; cbn [fold_left].
  - apply same_static_refl.
  - eapply same_static_trans; [ apply assign_heap_static | apply IH ].
Qed.

Lemma replay_static (md : list Match.t) (h : heap) :
  same_static h (replay h md).
Proof.
  revert h. induction md as [ | r md IH ]; intros h.
  - apply same_static_refl.
  - unfold replay. cbn [fold_left].
    eapply same_static_trans; [ | apply IH ].
    unfold apply_match. apply assign_heap_static.
Qed.

Lemma static_driver_fields (h h' : heap) (d : dref) :
  same_static h h' ->
  Driver.id (drv h' d) = Driver.id (drv h d) /\
  Driver.origin (drv h' d) = Driver.origin (drv h d) /\
  Driver.dest (drv h' d) = Driver.dest (drv h d) /\
  Driver.schedule (drv h' d) = Driver.schedule (drv h d).
Proof.
  intros [D _]. specialize (D d). unfold driver_static in D.
  inversion D. repeat split; reflexivity || assumption.
Qed.

Lemma static_passenger_fields (h h' : heap) (p : pref) :
  same_static h h' ->
  Passenger.origin (psg h' p) = Passenger.origin (psg h p) /\
  Passenger.dest (psg h' p) = Passenger.dest (psg h p) /\
  Passenger.schedule (psg h' p) = Passenger.schedule (psg h p).
Proof.
  intros [_ P]. specialize (P p). unfold passenger_static in P.
  inversion P. repeat split; reflexivity || assumption.
Qed.

(** ** Slices and the stable sort *)

Lemma In_firstn {A : Type} (n : nat) (l : list A) (x : A) :
  In x (firstn n l) -> In x l.
Proof.
  intros H. rewrite <- (firstn_skipn n l). apply in_or_app. left. exact H.
Qed.

Lemma py_slice_to_incl {A : Type} (l : list A) (k : Z) (x : A) :
  In x (py_slice_to l k) -> In x l.
Proof.
  unfold py_slice_to. destruct (0 <=? k); apply In_firstn.
Qed.

Lemma py_slice_to_nonneg {A : Type} (l : list A) (k : Z) :
  0 <= k ->
  py_slice_to l k = firstn (Nat.min (Z.to_nat k) (length l)) l.
Proof.
  intros Hk. unfold py_slice_to.
  destruct (0 <=? k) eqn:E; [ | apply Z.leb_gt in E; lia ].
  destruct (Nat.le_ge_cases (Z.to_nat k) (length l)) as [L | G].
  - rewrite Nat.min_l by exact L. reflexivity.
  - rewrite Nat.min_r by exact G.
    rewrite !firstn_all2 by lia. reflexivity.
Qed.

Lemma py_slice_to_length {A : Type} (l : list A) (k : Z) :
  0 <= k -> Z.of_nat (length (py_slice_to l k)) <= k.
Proof.
  intros Hk. rewrite py_slice_to_nonneg by exact Hk.
  rewrite length_firstn. lia.
Qed.

Lemma NoDup_firstn {A : Type} (n : nat) (l : list A) :
  NoDup l -> NoDup (firstn n l).
Proof.
  intros H. rewrite <- (firstn_skipn n l) in H.
  eapply NoDup_app_remove_r. exact H.
Qed.

Section SortFacts.
Context {A : Type} (key : A -> Q).

Lemma insert_by_key_perm (x : A) (l : list A) :
  Permutation (x :: l) (insert_by_key key x l).
Proof.
  induction l as [ | y l IH ]; cbn.
  - apply Permutation_refl.
  - destruct (Qltb (key y) (key x)).
    + eapply perm_trans; [ apply perm_swap | ].
      apply perm_skip, IH.
    + apply Permutation_refl.
Qed.

Lemma sort_by_key_perm (l : list A) : Permutation l (sort_by_key key l).
Proof.
  induction l as [ | x l IH ]; cbn.
  - apply perm_nil.
  - eapply perm_trans; [ apply perm_skip, IH | apply insert_by_key_perm ].
Qed.

Lemma insert_by_key_sorted (x : A) (l : list A) :
  StronglySorted (fun a b => (key a <= key b)%Q) l ->
  StronglySorted (fun a b => (key a <= key b)%Q) (insert_by_key key x l).
Proof.
  induction l as [ | y l IH ]; intros S; cbn.
  - constructor; [ constructor | constructor ].
  - inversion S as [ | y' l' Sl Fy ]; subst.
    destruct (Qltb (key y) (key x)) eqn:E.
    + constructor; [ apply IH, Sl | ].
      apply Qltb_true_lt in E.
      eapply Permutation_Forall; [ apply insert_by_key_perm | ].
      constructor; [ apply Qlt_le_weak, E | exact Fy ].
    + apply Qltb_false_le in E.
      constructor; [ exact S | ].
      constructor; [ exact E | ].
      eapply Forall_impl; [ | exact Fy ].
      intros a Ha. cbn in Ha. eapply Qle_trans; eassumption.
Qed.

Lemma sort_by_key_sorted (l : list A) :
  StronglySorted (fun a b => (key a <= key b)%Q) (sort_by_key key l).
Proof.
  induction l as [ | x l IH ]; cbn.
  - constructor.
  - apply insert_by_key_sorted, IH.
Qed.



Lemma sorted_split_le (n : nat) (l : list A) (a r : A) :
  StronglySorted (fun a b => (key a <= key b)%Q) l ->
  In a (firstn n l) -> In r (skipn n l) -> (key a <= key r)%Q.
Proof.
  revert n. induction l as [ | y l IH ]; intros n S Ha Hr.
  - rewrite firstn_nil in Ha. destruct Ha.
  - destruct n as [ | n ]; [ destruct Ha | ].
    inversion S as [ | y' l' Sl Fy ]; subst.
    cbn in Ha, Hr. destruct Ha as [ <- | Ha ].
    + rewrite Forall_forall in Fy. apply Fy.
      rewrite <- (firstn_skipn n l). apply in_or_app. right. exact Hr.
    + eapply IH; eassumption.
Qed.

End SortFacts.

(** ** One driver's turn *)

Lemma Qle_bool_Qgtb (x y : Q) : Qle_bool x y = negb (Qgtb x y).
Proof.
  destruct (Qgtb x y) eqn:G; cbn.
  - apply Qgtb_true_lt in G. destruct (Qle_bool x y) eqn:L; [ | reflexivity ].
    apply Qle_bool_iff in L. exfalso. exact (Qlt_not_le _ _ G L).
  - apply Qle_bool_iff. apply Qgtb_false_le, G.
Qed.

Lemma leb_gtb (x y : Z) : (x <=? y) = negb (x >? y).
Proof. rewrite Z.gtb_ltb. apply Z.leb_antisym. Qed.

Lemma fold_assign (d : dref) (sel : list candidate) (st : heap * list Match.t) :
  fold_left (assign d) sel st =
  (fold_left (assign_heap d) sel (fst st), snd st ++ map (match_record d) sel).
Proof.
  revert st. induction sel as [ | c sel IH ]; intros st; cbn [fold_left map].
  - rewrite app_nil_r. destruct st; reflexivity.
  - rewrite IH. unfold assign. cbn [fst snd].
    rewrite <- app_assoc. reflexivity.
Qed.

Lemma apply_match_record (d : dref) (h : heap) (c : candidate) :
  apply_match h (match_record d c) = assign_heap d h c.
Proof. destruct c as [[p o] e]. reflexivity. Qed.

Lemma replay_app (h : heap) (md md' : list Match.t) :
  replay h (md ++ md') = replay (replay h md) md'.
Proof. unfold replay. apply fold_left_app. Qed.

Lemma replay_records (d : dref) (sel : list candidate) (h : heap) :
  replay h (map (match_record d) sel) = fold_left (assign_heap d) sel h.
Proof.
  revert h. induction sel as [ | c sel IH ]; intros h; [ reflexivity | ].
  unfold replay in *. cbn [map fold_left].
  rewrite apply_match_record. apply IH.
Qed.

(** What a turn does to its own driver and to everybody else. *)
Lemma drv_fold_assign_other (d x : dref) (sel : list candidate) (h : heap) :
  x <> d -> drv (fold_left (assign_heap d) sel h) x = drv h x.
Proof.
  intros N. revert h. induction sel as [ | c sel IH ]; intros h;
    cbn [fold_left]; [ reflexivity | ].
  rewrite IH, drv_assign_heap.
  apply Nat.eqb_neq in N. rewrite N. reflexivity.
Qed.

Lemma drv_fold_assign_same (d : dref) (sel : list candidate) (h : heap) :
  drv (fold_left (assign_heap d) sel h) d =
  Driver.mk (Driver.id (drv h d)) (Driver.name (drv h d))
    (Driver.origin (drv h d)) (Driver.dest (drv h d))
    (Driver.schedule (drv h d))
    (Driver.capacity (drv h d) - Z.of_nat (length sel))
    (Driver.passengers (drv h d) ++ map cand_passenger sel).
Proof.
  revert h. induction sel as [ | c sel IH ]; intros h; cbn [fold_left].
  - cbn. rewrite app_nil_r, Z.sub_0_r. destruct (drv h d); reflexivity.
  - rewrite IH, drv_assign_heap, Nat.eqb_refl.
    cbn [Driver.decr_capacity Driver.append_passenger Driver.id Driver.name
         Driver.origin Driver.dest Driver.schedule Driver.capacity
         Driver.passengers length map].
    rewrite <- app_assoc. f_equal. lia.
Qed.

Lemma psg_fold_assign_other (d : dref) (x : pref) (sel : list candidate)
    (h : heap) :
  ~ In x (map cand_passenger sel) ->
  psg (fold_left (assign_heap d) sel h) x = psg h x.
Proof.
  revert h. induction sel as [ | c sel IH ]; intros h N;
    cbn [fold_left]; [ reflexivity | ].
  cbn [map] in N. rewrite IH by (intros H; apply N; right; exact H).
  rewrite psg_assign_heap.
  destruct (Nat.eqb x (fst (fst c))) eqn:E; [ | reflexivity ].
  apply Nat.eqb_eq in E. exfalso. apply N. left. symmetry. exact E.
Qed.

Lemma matched_assign_heap (d : dref) (h : heap) (c : candidate) (x : pref) :
  Passenger.matched_driver (psg (assign_heap d h c) x) =
  if Nat.eqb x (cand_passenger c) then Some d
  else Passenger.matched_driver (psg h x).
Proof.
  rewrite psg_assign_heap. unfold cand_passenger.
  destruct (Nat.eqb x (fst (fst c))); reflexivity.
Qed.

Lemma fare_assign_heap (d : dref) (h : heap) (c : candidate) (x : pref) :
  Passenger.fare (psg (assign_heap d h c) x) =
  if Nat.eqb x (cand_passenger c) then ride_cost
  else Passenger.fare (psg h x).
Proof.
  rewrite psg_assign_heap. unfold cand_passenger.
  destruct (Nat.eqb x (fst (fst c))); reflexivity.
Qed.

Lemma reasons_assign_heap (d : dref) (h : heap) (c : candidate) (x : pref) :
  Passenger.rejection_reasons (psg (assign_heap d h c) x) =
  Passenger.rejection_reasons (psg h x).
Proof.
  rewrite psg_assign_heap.
  destruct (Nat.eqb x (fst (fst c))) eqn:E; [ | reflexivity ].
  apply Nat.eqb_eq in E. subst x. reflexivity.
Qed.

Lemma reasons_replay (md : list Match.t) (h : heap) (x : pref) :
  Passenger.rejection_reasons (psg (replay h md) x) =
  Passenger.rejection_reasons (psg h x).
Proof.
  revert h. induction md as [ | r md IH ]; intros h; [ reflexivity | ].
  unfold replay in *. cbn [fold_left]. rewrite IH.
  unfold apply_match. apply reasons_assign_heap.
Qed.

(** ** The two passes over the rejection analyses *)

Lemma only_reasons_changed_refl (h : heap) : only_reasons_changed h h.
Proof.
  split; intros x; [ reflexivity | ]. destruct (psg h x); reflexivity.
Qed.

Lemma only_reasons_changed_trans (h1 h2 h3 : heap) :
  only_reasons_changed h1 h2 -> only_reasons_changed h2 h3 ->
  only_reasons_changed h1 h3.
Proof.
  intros [D1 P1] [D2 P2]. split; intros x.
  - rewrite D2. apply D1.
  - rewrite (P2 x). rewrite (P1 x). reflexivity.
Qed.

Lemma set_reasons_only (h : heap) (p : pref) (l : list Reason.t) :
  only_reasons_changed h
    (set_psg h p (Passenger.set_rejection_reasons (psg h p) l)).
Proof.
  split; intros x; [ reflexivity | ].
  rewrite psg_set_psg. destruct (Nat.eqb x p) eqn:E.
  - apply Nat.eqb_eq in E. subst x. reflexivity.
  - destruct (psg h x); reflexivity.
Qed.

Lemma fold_only_reasons (f : heap -> pref -> heap) :
  (forall h p, only_reasons_changed h (f h p)) ->
  forall ps h, only_reasons_changed h (fold_left f ps h).
Proof.
  intros Hf ps. induction ps as [ | p ps IH ]; intros h; cbn [fold_left].
  - apply only_reasons_changed_refl.
  - eapply only_reasons_changed_trans; [ apply Hf | apply IH ].
Qed.

Lemma refresh_matched_only (ps : list pref) (h : heap) :
  only_reasons_changed h (refresh_matched ps h).
Proof.
  unfold refresh_matched. apply fold_only_reasons. intros h' p.
  destruct (Passenger.matched_driver (psg h' p)).
  - apply set_reasons_only.
  - apply only_reasons_changed_refl.
Qed.

Lemma only_reasons_static (h h' : heap) :
  only_reasons_changed h h' -> same_static h h'.
Proof.
  intros [D P]. split; intros x.
  - rewrite D. reflexivity.
  - rewrite (P x). reflexivity.
Qed.

Lemma only_reasons_matched (h h' : heap) (p : pref) :
  only_reasons_changed h h' ->
  Passenger.matched_driver (psg h' p) = Passenger.matched_driver (psg h p).
Proof. intros [_ P]. rewrite (P p). reflexivity. Qed.

Lemma only_reasons_fare (h h' : heap) (p : pref) :
  only_reasons_changed h h' ->
  Passenger.fare (psg h' p) = Passenger.fare (psg h p).
Proof. intros [_ P]. rewrite (P p). reflexivity. Qed.

Lemma refreshed_reasons_only (h h' : heap) (p : pref) :
  only_reasons_changed h h' ->
  Passenger.rejection_reasons (psg h' p) = Passenger.rejection_reasons (psg h p) ->
  refreshed_reasons h' p = refreshed_reasons h p.
Proof.
  intros O R. unfold refreshed_reasons.
  rewrite (only_reasons_matched _ _ _ O), R.
  destruct (Passenger.matched_driver (psg h p)) as [ d | ]; [ | reflexivity ].
  destruct O as [D _]. rewrite D. reflexivity.
Qed.

Lemma refreshed_reasons_idem (h h' : heap) (p : pref) :
  only_reasons_changed h h' ->
  Passenger.rejection_reasons (psg h' p) = refreshed_reasons h p ->
  refreshed_reasons h' p = refreshed_reasons h p.
Proof.
  intros O R. unfold refreshed_reasons at 1.
  rewrite (only_reasons_matched _ _ _ O), R.
  unfold refreshed_reasons.
  destruct (Passenger.matched_driver (psg h p)) as [ d | ]; [ | reflexivity ].
  destruct O as [D _]. rewrite D, map_map. apply map_ext.
  intros r. reflexivity.
Qed.

Lemma refresh_step_reasons (h : heap) (p x : pref) :
  Passenger.rejection_reasons
    (psg match Passenger.matched_driver (psg h p) with
         | Some d =>
             set_psg h p
               (Passenger.set_rejection_reasons (psg h p)
                  (map (fun reason =>
                          Reason.set_matched reason
                            (Reason.driver_id reason =? Driver.id (drv h d)))
                       (Passenger.rejection_reasons (psg h p))))
         | None => h
         end x) =
  if Nat.eqb x p then refreshed_reasons h p
  else Passenger.rejection_reasons (psg h x).
Proof.
  unfold refreshed_reasons.
  destruct (Passenger.matched_driver (psg h p)) as [ d | ].
  - rewrite psg_set_psg. destruct (Nat.eqb x p); reflexivity.
  - destruct (Nat.eqb x p) eqn:E; [ | reflexivity ].
    apply Nat.eqb_eq in E. subst x. reflexivity.
Qed.

(** The final pass, passenger by passenger: everybody in the pool ends
    with the refreshed analysis, everybody else is left alone. *)
Lemma refresh_matched_reasons (h0 : heap) (ps : list pref) (h : heap) :
  only_reasons_changed h0 h ->
  (forall x, Passenger.rejection_reasons (psg h x)
             = Passenger.rejection_reasons (psg h0 x)
          \/ Passenger.rejection_reasons (psg h x) = refreshed_reasons h0 x) ->
  forall x,
    (In x ps ->
     Passenger.rejection_reasons (psg (refresh_matched ps h) x)
     = refreshed_reasons h0 x) /\
    (~ In x ps ->
     Passenger.rejection_reasons (psg (refresh_matched ps h) x)
     = Passenger.rejection_reasons (psg h x)).
Proof.
  revert h. induction ps as [ | p ps IH ]; intros h O St x.
  - split; [ intros [] | reflexivity ].
  - unfold refresh_matched in *. cbn [fold_left].
    set (h' := match Passenger.matched_driver (psg h p) with
               | Some d => _ | None => h end).
    assert (Hx : forall y, Passenger.rejection_reasons (psg h' y) =
                 if Nat.eqb y p then refreshed_reasons h p
                 else Passenger.rejection_reasons (psg h y))
      by (intros y; apply refresh_step_reasons).
    assert (Hp : refreshed_reasons h p = refreshed_reasons h0 p).
    { destruct (St p) as [E | E].
      - apply refreshed_reasons_only; assumption.
      - apply refreshed_reasons_idem; assumption. }
    assert (O' : only_reasons_changed h0 h').
    { eapply only_reasons_changed_trans; [ exact O | ].
      subst h'. destruct (Passenger.matched_driver (psg h p)).
      - apply set_reasons_only.
      - apply only_reasons_changed_refl. }
    assert (St' : forall y,
               Passenger.rejection_reasons (psg h' y)
               = Passenger.rejection_reasons (psg h0 y)
               \/ Passenger.rejection_reasons (psg h' y) = refreshed_reasons h0 y).
    { intros y. rewrite Hx. destruct (Nat.eqb y p) eqn:E.
      - apply Nat.eqb_eq in E. subst y. right. exact Hp.
      - apply St. }
    destruct (IH h' O' St' x) as [In' Out'].
    split.
    + intros [ <- | H ].
      * destruct (in_dec Nat.eq_dec p ps) as [ I | N ]; [ apply In', I | ].
        rewrite (Out' N), Hx, Nat.eqb_refl. exact Hp.
      * apply In', H.
    + intros N. rewrite Out' by (intros H; apply N; right; exact H).
      rewrite Hx. destruct (Nat.eqb x p) eqn:E; [ | reflexivity ].
      apply Nat.eqb_eq in E. exfalso. apply N. left. symmetry. exact E.
Qed.

Section EngineFacts.
Variable haversine : coord -> coord -> Q.

Lemma analyse_set_reasons (d : Driver.t) (p : Passenger.t) (l : list Reason.t) :
  analyse haversine d (Passenger.set_rejection_reasons p l)
  = analyse haversine d p.
Proof. reflexivity. Qed.

Lemma record_rejections_only (ds : list dref) (ps : list pref) (h : heap) :
  only_reasons_changed h (record_rejections haversine ds ps h).
Proof.
  unfold record_rejections. apply fold_only_reasons.
  intros h' p. apply set_reasons_only.
Qed.

Lemma analyse_only (h0 h : heap) (ds : list dref) (p : pref) :
  only_reasons_changed h0 h ->
  map (fun d => analyse haversine (drv h d) (psg h p)) ds
  = map (fun d => analyse haversine (drv h0 d) (psg h0 p)) ds.
Proof.
  intros [D P]. apply map_ext. intros d.
  rewrite D, (P p). apply analyse_set_reasons.
Qed.

(** After the exhaustive pass every pool passenger holds one entry per
    driver, in the order of the drivers list it was given. *)
Lemma record_rejections_reasons (h0 : heap) (ds : list dref) (ps : list pref)
    (h : heap) :
  only_reasons_changed h0 h ->
  forall x,
    (In x ps ->
     Passenger.rejection_reasons (psg (record_rejections haversine ds ps h) x)
     = map (fun d => analyse haversine (drv h0 d) (psg h0 x)) ds) /\
    (~ In x ps ->
     Passenger.rejection_reasons (psg (record_rejections haversine ds ps h) x)
     = Passenger.rejection_reasons (psg h x)).
Proof.
  revert h. induction ps as [ | p ps IH ]; intros h O x.
  - split; [ intros [] | reflexivity ].
  - unfold record_rejections in *. cbn [fold_left].
    set (h' := set_psg h p _).
    assert (O' : only_reasons_changed h0 h').
    { eapply only_reasons_changed_trans; [ exact O | apply set_reasons_only ]. }
    destruct (IH h' O' x) as [In' Out'].
    split.
    + intros [ <- | H ]; [ | apply In', H ].
      destruct (in_dec Nat.eq_dec p ps) as [ I | N ]; [ apply In', I | ].
      rewrite (Out' N). subst h'. rewrite psg_set_psg, Nat.eqb_refl.
      cbn [Passenger.rejection_reasons Passenger.set_rejection_reasons].
      apply analyse_only, O.
    + intros N. rewrite Out' by (intros H; apply N; right; exact H).
      subst h'. rewrite psg_set_psg.
      destruct (Nat.eqb x p) eqn:E; [ | reflexivity ].
      apply Nat.eqb_eq in E. exfalso. apply N. left. symmetry. exact E.
Qed.

(** ** The candidate filter *)

Lemma build_candidates_spec (h : heap) (driver : dref) (ps : list pref) :
  build_candidates haversine h driver ps
  = candidates_spec haversine h driver ps.
Proof.
  unfold candidates_spec, within_thresholds, is_matched.
  induction ps as [ | p ps IH ]; [ reflexivity | ].
  cbn [build_candidates filter]. rewrite IH.
  destruct (Passenger.matched_driver (psg h p)); [ reflexivity | ].
  rewrite !Qle_bool_Qgtb, leb_gtb. cbn [negb andb].
  destruct (Qgtb _ SEARCH_RADIUS_KM); [ reflexivity | ].
  destruct (Qgtb _ SEARCH_RADIUS_KM); [ reflexivity | ].
  destruct (_ >? 1); reflexivity.
Qed.

Lemma candidate_facts (h : heap) (driver : dref) (ps : list pref)
    (c : candidate) :
  In c (build_candidates haversine h driver ps) ->
  In (cand_passenger c) ps /\
  Passenger.matched_driver (psg h (cand_passenger c)) = None /\
  snd (fst c) = haversine (Driver.origin (drv h driver))
                  (Passenger.origin (psg h (cand_passenger c))) /\
  snd c = haversine (Driver.dest (drv h driver))
            (Passenger.dest (psg h (cand_passenger c))) /\
  within_thresholds haversine (drv h driver) (psg h (cand_passenger c)) = true.
Proof.
  rewrite build_candidates_spec. unfold candidates_spec.
  rewrite in_map_iff. intros [p [<- Hp]].
  apply filter_In in Hp. destruct Hp as [Hin Hf].
  apply andb_true_iff in Hf. destruct Hf as [Hm Hw].
  unfold cand_passenger. cbn [fst snd].
  repeat split; try assumption.
  unfold is_matched in Hm.
  destruct (Passenger.matched_driver (psg h p)); [ discriminate Hm | reflexivity ].
Qed.

Lemma candidates_passengers (h : heap) (driver : dref) (ps : list pref) :
  map cand_passenger (build_candidates haversine h driver ps)
  = filter (fun p =>
              negb (is_matched h p)
              && within_thresholds haversine (drv h driver) (psg h p)) ps.
Proof.
  rewrite build_candidates_spec. unfold candidates_spec.
  rewrite map_map. cbn. apply map_id.
Qed.

Lemma selection_incl (h : heap) (driver : dref) (ps : list pref)
    (c : candidate) :
  In c (turn_selection haversine h driver ps) ->
  In c (build_candidates haversine h driver ps).
Proof.
  unfold turn_selection, select_candidates.
  destruct (Driver.capacity (drv h driver) =? 0); [ intros [] | ].
  intros H. apply py_slice_to_incl in H.
  eapply Permutation_in; [ apply Permutation_sym, sort_by_key_perm | exact H ].
Qed.

Lemma NoDup_filter {A : Type} (f : A -> bool) (l : list A) :
  NoDup l -> NoDup (filter f l).
Proof.
  induction 1 as [ | x l N _ IH ]; cbn; [ constructor | ].
  destruct (f x); [ | exact IH ].
  constructor; [ | exact IH ].
  intros H. apply filter_In in H. apply N, H.
Qed.

Lemma selection_NoDup (h : heap) (driver : dref) (ps : list pref) :
  NoDup ps ->
  NoDup (map cand_passenger (turn_selection haversine h driver ps)).
Proof.
  intros N. unfold turn_selection, select_candidates.
  destruct (Driver.capacity (drv h driver) =? 0); [ constructor | ].
  unfold py_slice_to.
  destruct (0 <=? _); rewrite <- firstn_map; apply NoDup_firstn;
    (eapply Permutation_NoDup;
     [ apply Permutation_map, sort_by_key_perm | ]);
    rewrite candidates_passengers; apply NoDup_filter, N.
Qed.

Lemma selection_length (h : heap) (driver : dref) (ps : list pref) :
  0 <= Driver.capacity (drv h driver) ->
  Z.of_nat (length (turn_selection haversine h driver ps))
  <= Driver.capacity (drv h driver).
Proof.
  intros C. unfold turn_selection, select_candidates.
  destruct (Driver.capacity (drv h driver) =? 0); [ exact C | ].
  apply py_slice_to_length, C.
Qed.

(** ** The driver loop as a log of assignments *)

Lemma process_driver_log (ps : list pref) (st : heap * list Match.t)
    (d : dref) :
  process_driver haversine ps st d =
  (fold_left (assign_heap d) (turn_selection haversine (fst st) d ps) (fst st),
   snd st ++ map (match_record d) (turn_selection haversine (fst st) d ps)).
Proof.
  unfold process_driver, turn_selection.
  destruct (Driver.capacity (drv (fst st) d) =? 0).
  - cbn. rewrite app_nil_r. destruct st; reflexivity.
  - apply fold_assign.
Qed.

(** Whatever the processing order, the log grows turn by turn, and the
    store is always the replay of the log so far. *)
Lemma assign_all_ind (ps : list pref) (h1 : heap) (P : list Match.t -> Prop) :
  P [] ->
  (forall md d,
     P md ->
     P (md ++ map (match_record d)
                  (turn_selection haversine (replay h1 md) d ps))) ->
  forall order,
    P (snd (assign_all haversine order ps h1)) /\
    fst (assign_all haversine order ps h1)
    = replay h1 (snd (assign_all haversine order ps h1)).
Proof.
  intros P0 Pstep order. unfold assign_all.
  assert (G : forall st,
             P (snd st) -> fst st = replay h1 (snd st) ->
             P (snd (fold_left (process_driver haversine ps) order st)) /\
             fst (fold_left (process_driver haversine ps) order st)
             = replay h1 (snd (fold_left (process_driver haversine ps) order st))).
  { induction order as [ | d order IH ]; intros st Pst Est; cbn [fold_left].
    - split; assumption.
    - apply IH; rewrite process_driver_log; cbn [fst snd]; rewrite Est.
      + apply Pstep, Pst.
      + rewrite replay_app, replay_records. reflexivity. }
  apply G; [ exact P0 | reflexivity ].
Qed.

End EngineFacts.

(** ** The shuffle *)

Lemma nth_error_set_nth_same {A : Type} (i : nat) (v a : A) (l : list A) :
  nth_error l i = Some a -> nth_error (set_nth i v l) i = Some v.
Proof.
  revert i. induction l as [ | x l IH ]; intros [ | i ] H; cbn in *;
    try discriminate H; [ reflexivity | apply IH, H ].
Qed.

Lemma nth_error_set_nth_other {A : Type} (i j : nat) (v : A) (l : list A) :
  i <> j -> nth_error (set_nth i v l) j = nth_error l j.
Proof.
  revert i j. induction l as [ | x l IH ]; intros [ | i ] [ | j ] N; cbn;
    try reflexivity; [ contradiction | apply IH; congruence ].
Qed.

Lemma set_nth_perm {A : Type} (i : nat) (v a : A) (l : list A) :
  nth_error l i = Some a -> Permutation (v :: l) (a :: set_nth i v l).
Proof.
  revert i. induction l as [ | x l IH ]; intros [ | i ] H; cbn in *;
    try discriminate H.
  - injection H as ->. apply perm_swap.
  - eapply perm_trans; [ apply perm_swap | ].
    eapply perm_trans; [ apply perm_skip, IH, H | apply perm_swap ].
Qed.

Lemma swap_perm {A : Type} (i j : nat) (l : list A) :
  Permutation l (swap i j l).
Proof.
  unfold swap.
  destruct (nth_error l i) as [ a | ] eqn:Ei; [ | apply Permutation_refl ].
  destruct (nth_error l j) as [ b | ] eqn:Ej; [ | apply Permutation_refl ].
  assert (Ej' : nth_error (set_nth i b l) j = Some b).
  { destruct (Nat.eq_dec i j) as [ <- | N ].
    - eapply nth_error_set_nth_same, Ei.
    - rewrite nth_error_set_nth_other by exact N. exact Ej. }
  apply (Permutation_cons_inv (a := b)).
  eapply perm_trans; [ apply set_nth_perm, Ei | ].
  apply set_nth_perm, Ej'.
Qed.

Section ShuffleFacts.
Variable rng : Type.
Variable randbelow : nat -> rng -> nat * rng.

Lemma shuffle_from_perm {A : Type} (i : nat) (s : rng) (x : list A) :
  Permutation x (fst (shuffle_from rng randbelow i s x)).
Proof.
  revert s x. induction i as [ | i IH ]; intros s x; cbn [shuffle_from].
  - apply Permutation_refl.
  - destruct (randbelow (S (S i)) s) as [j s'].
    eapply perm_trans; [ apply (swap_perm (S i) j) | apply IH ].
Qed.

Lemma shuffle_perm {A : Type} (s : rng) (x : list A) :
  Permutation x (fst (shuffle rng randbelow s x)).
Proof. apply shuffle_from_perm. Qed.

End ShuffleFacts.

(** ** The claims *)

Lemma same_static_sym (h h' : heap) : same_static h h' -> same_static h' h.
Proof. intros [D P]. split; intros x; symmetry; [ apply D | apply P ]. Qed.

Lemma sound_match_static (haversine : coord -> coord -> Q) (h h' : heap)
    (r : Match.t) :
  same_static h h' -> sound_match haversine h r -> sound_match haversine h' r.
Proof.
  intros S. unfold sound_match.
  destruct (static_driver_fields h h' (Match.driver r) S) as (_ & -> & -> & ->).
  destruct (static_passenger_fields h h' (Match.passenger r) S) as (-> & -> & ->).
  intros H. exact H.
Qed.

Lemma turn_prefix (md : list Match.t) (d : dref) (sel : list candidate)
    (done rest : list Match.t) :
  md ++ map (match_record d) sel = done ++ rest ->
  (exists l, md = done ++ l /\ rest = l ++ map (match_record d) sel) \/
  (exists s1 s2,
     sel = s1 ++ s2 /\ done = md ++ map (match_record d) s1
     /\ rest = map (match_record d) s2).
Proof.
  intros E. apply app_eq_app in E. destruct E as [l [[E1 E2] | [E1 E2]]].
  - left. exists l. split; assumption.
  - right. apply map_eq_app in E2. destruct E2 as (s1 & s2 & Es & <- & <-).
    exists s1, s2. repeat split; assumption.
Qed.

Section Claims.
Variable haversine : coord -> coord -> Q.
Variable rng : Type.
Variable randbelow : nat -> rng -> nat * rng.

Local Abbreviation match_algorithm' := (match_algorithm haversine rng randbelow).
Local Abbreviation shuffle' := (shuffle rng randbelow).

(** The shape of a run: the exhaustive pass, the shuffle, the driver loop
    whose store is the replay of the returned log, the final pass. *)
Lemma match_algorithm_unfold (s : rng) (ds : list dref) (ps : list pref)
    (h : heap) :
  let h1 := record_rejections haversine ds ps h in
  let order := fst (shuffle' s ds) in
  let md := snd (assign_all haversine order ps h1) in
  match_algorithm' s ds ps h
  = mkOutcome md (refresh_matched ps (replay h1 md)) order (snd (shuffle' s ds)).
Proof.
  intros h1 order md. unfold match_algorithm.
  fold h1. subst order md. destruct (shuffle' s ds) as [order s']. cbn [fst snd].
  destruct (assign_all_ind haversine ps h1 (fun _ => True) I (fun _ _ _ => I) order)
    as [_ E].
  destruct (assign_all haversine order ps h1) as [h2 md]. cbn [fst snd] in *.
  rewrite E. reflexivity.
Qed.

Lemma selection_sound (h1 : heap) (md : list Match.t) (d : dref)
    (ps : list pref) :
  Forall (sound_match haversine h1)
    (map (match_record d) (turn_selection haversine (replay h1 md) d ps)).
Proof.
  apply Forall_forall. intros r Hr.
  apply in_map_iff in Hr. destruct Hr as [c [<- Hc]].
  apply selection_incl, candidate_facts in Hc.
  destruct Hc as (_ & _ & Eo & Ed & W).
  apply (sound_match_static haversine (replay h1 md) h1);
    [ apply same_static_sym, replay_static | ].
  destruct c as [[p o] e]. unfold cand_passenger in *. cbn [fst snd] in *.
  unfold within_thresholds in W.
  apply andb_true_iff in W. destruct W as [W Ws].
  apply andb_true_iff in W. destruct W as [Wo Wd].
  apply Qle_bool_iff in Wo. apply Qle_bool_iff in Wd. apply Z.leb_le in Ws.
  unfold sound_match, match_record.
  cbn [Match.driver Match.passenger Match.pickup_dist Match.dropoff_dist].
  subst o e. repeat split; assumption.
Qed.

(** C1. Constraint soundness: for every population, every generator state
    (hence every shuffle order), every record returned by [match_algorithm]
    carries the haversine distances between its driver's and its
    passenger's origins and destinations, both at most [SEARCH_RADIUS_KM],
    and the two schedules differ by at most one hour; this reads the same
    on the objects as passed in and as left behind. *)
Theorem constraint_soundness (s : rng) (ds : list dref) (ps : list pref)
    (h : heap) :
  Forall (sound_match haversine h) (match_details (match_algorithm' s ds ps h))
  /\ Forall (sound_match haversine (final_heap (match_algorithm' s ds ps h)))
       (match_details (match_algorithm' s ds ps h)).
Proof.
  rewrite match_algorithm_unfold. cbn [match_details final_heap].
  set (h1 := record_rejections haversine ds ps h).
  set (order := fst (shuffle' s ds)).
  assert (S1 : same_static h h1)
    by apply only_reasons_static, record_rejections_only.
  destruct (assign_all_ind haversine ps h1 (Forall (sound_match haversine h1)))
    with (order := order) as [F _].
  - constructor.
  - intros md d Hmd. apply Forall_app. split; [ exact Hmd | ].
    apply selection_sound.
  - set (md := snd (assign_all haversine order ps h1)) in *.
    split; eapply Forall_impl; try exact F; intros r Hr.
    + eapply sound_match_static; [ apply same_static_sym, S1 | exact Hr ].
    + eapply sound_match_static; [ | exact Hr ].
      eapply same_static_trans; [ apply replay_static | ].
      apply only_reasons_static, refresh_matched_only.
Qed.

Lemma capacity_invariant_turn (h : heap) (d d' : dref) (ps : list pref)
    (s1 s2 : list candidate) :
  capacity_invariant (drv h d) ->
  turn_selection haversine h d' ps = s1 ++ s2 ->
  capacity_invariant (drv (fold_left (assign_heap d') s1 h) d).
Proof.
  intros [Eq Pos] Sel. destruct (Nat.eq_dec d d') as [ <- | N ].
  - pose proof (selection_length haversine h d ps Pos) as L.
    rewrite Sel, length_app in L.
    rewrite drv_fold_assign_same. unfold capacity_invariant.
    cbn [Driver.capacity Driver.passengers].
    rewrite length_app, length_map. split; lia.
  - rewrite drv_fold_assign_other by exact N. split; assumption.
Qed.

(** C2. Capacity invariant: a driver that enters [match_algorithm] with
    [capacity + len(passengers) == MAX_CAPACITY] and a non-negative
    capacity (as [Driver.__init__] leaves it) satisfies both after every
    step of the exhaustive pass, after every single assignment of the
    driver loop, after every step of the final pass and on return; in
    particular it never carries more than [MAX_CAPACITY] passengers.
    This holds for every population and every generator state. *)
Theorem capacity_invariant_preserved (s : rng) (ds : list dref)
    (ps : list pref) (h : heap) (d : dref) :
  capacity_invariant (drv h d) ->
  (forall ps', capacity_invariant (drv (record_rejections haversine ds ps' h) d))
  /\ (forall done rest,
        match_details (match_algorithm' s ds ps h) = done ++ rest ->
        capacity_invariant
          (drv (replay (record_rejections haversine ds ps h) done) d))
  /\ (forall ps',
        capacity_invariant
          (drv (refresh_matched ps'
                  (replay (record_rejections haversine ds ps h)
                     (match_details (match_algorithm' s ds ps h)))) d))
  /\ capacity_invariant (drv (final_heap (match_algorithm' s ds ps h)) d)
  /\ Z.of_nat (length (Driver.passengers
                         (drv (final_heap (match_algorithm' s ds ps h)) d)))
     <= MAX_CAPACITY
  /\ 0 <= Driver.capacity (drv (final_heap (match_algorithm' s ds ps h)) d).
Proof.
  intros Inv.
  assert (Pre : forall ps',
             capacity_invariant (drv (record_rejections haversine ds ps' h) d)).
  { intros ps'. destruct (record_rejections_only haversine ds ps' h) as [D _].
    rewrite D. exact Inv. }
  rewrite match_algorithm_unfold. cbn [match_details final_heap].
  set (h1 := record_rejections haversine ds ps h).
  set (order := fst (shuffle' s ds)).
  destruct (assign_all_ind haversine ps h1
              (fun md => forall done rest, md = done ++ rest ->
                         capacity_invariant (drv (replay h1 done) d)))
    with (order := order) as [F _].
  - intros done rest E. symmetry in E. apply app_eq_nil in E.
    destruct E as [-> _]. apply Pre.
  - intros md d' Hmd done rest E. apply turn_prefix in E.
    destruct E as [ (l & E & _) | (s1 & s2 & Es & -> & _) ].
    + eapply Hmd, E.
    + rewrite replay_app, replay_records.
      eapply capacity_invariant_turn; [ | exact Es ].
      apply (Hmd md []). rewrite app_nil_r. reflexivity.
  - set (md := snd (assign_all haversine order ps h1)) in *.
    assert (Post : forall ps',
               capacity_invariant (drv (refresh_matched ps' (replay h1 md)) d)).
    { intros ps'. destruct (refresh_matched_only ps' (replay h1 md)) as [D _].
      rewrite D. apply (F md []). rewrite app_nil_r. reflexivity. }
    split; [ exact Pre | ]. split; [ exact F | ]. split; [ exact Post | ].
    split; [ apply Post | ].
    destruct (Post ps) as [Eq Pos]. split; [ lia | exact Pos ].
Qed.

Lemma matched_apply_match (h : heap) (r : Match.t) (x : pref) :
  Passenger.matched_driver (psg (apply_match h r) x) =
  if Nat.eqb x (Match.passenger r) then Some (Match.driver r)
  else Passenger.matched_driver (psg h x).
Proof. unfold apply_match. apply matched_assign_heap. Qed.

Lemma replay_snoc (h : heap) (md : list Match.t) (r : Match.t) :
  replay h (md ++ [r]) = apply_match (replay h md) r.
Proof. rewrite replay_app. reflexivity. Qed.

Lemma fresh_log_prefix (h1 : heap) (md md' : list Match.t) :
  fresh_log h1 (md ++ md') -> fresh_log h1 md.
Proof.
  intros F done r rest E. apply (F done r (rest ++ md')).
  rewrite E, <- app_assoc. reflexivity.
Qed.

Lemma fresh_log_stable (h1 : heap) (p : pref) (d : dref)
    (mid done : list Match.t) :
  fresh_log h1 (done ++ mid) ->
  Passenger.matched_driver (psg (replay h1 done) p) = Some d ->
  Passenger.matched_driver (psg (replay h1 (done ++ mid)) p) = Some d.
Proof.
  revert done. induction mid as [ | r mid IH ]; intros done F M.
  - rewrite app_nil_r. exact M.
  - replace (done ++ r :: mid) with ((done ++ [r]) ++ mid) in *
      by (rewrite <- app_assoc; reflexivity).
    apply IH; [ exact F | ].
    rewrite replay_snoc, matched_apply_match.
    destruct (Nat.eqb p (Match.passenger r)) eqn:E; [ | exact M ].
    apply Nat.eqb_eq in E. subst p.
    rewrite (F done r mid) in M by (rewrite <- app_assoc; reflexivity).
    discriminate M.
Qed.

Lemma fresh_log_NoDup (h1 : heap) (md : list Match.t) :
  fresh_log h1 md -> NoDup (map Match.passenger md).
Proof.
  induction md as [ | r md IH ] using rev_ind; intros F; [ constructor | ].
  rewrite map_app. cbn [map].
  eapply Permutation_NoDup; [ apply Permutation_cons_append | ].
  constructor; [ | apply IH, (fresh_log_prefix _ _ _ F) ].
  intros Hin. apply in_map_iff in Hin. destruct Hin as [r' [Er' Hin]].
  apply in_split in Hin. destruct Hin as (a & b & ->).
  pose proof (F (a ++ r' :: b) r [] eq_refl) as U.
  assert (M : Passenger.matched_driver
                (psg (replay h1 ((a ++ [r']) ++ b)) (Match.passenger r))
              = Some (Match.driver r')).
  { apply fresh_log_stable.
    - rewrite <- app_assoc. apply (fresh_log_prefix _ _ _ F).
    - rewrite replay_snoc, matched_apply_match, Er', Nat.eqb_refl.
      reflexivity. }
  rewrite <- app_assoc in M. cbn [app] in M. rewrite U in M. discriminate M.
Qed.

Lemma selection_unmatched (h : heap) (d : dref) (ps : list pref)
    (s1 s2 : list candidate) (c : candidate) :
  NoDup ps ->
  turn_selection haversine h d ps = s1 ++ c :: s2 ->
  Passenger.matched_driver
    (psg (fold_left (assign_heap d) s1 h) (cand_passenger c)) = None.
Proof.
  intros N Sel.
  pose proof (selection_NoDup haversine h d ps N) as ND.
  rewrite Sel, map_app in ND. cbn [map] in ND.
  apply NoDup_remove_2 in ND.
  rewrite psg_fold_assign_other
    by (intros H; apply ND, in_or_app; left; exact H).
  assert (Hc : In c (turn_selection haversine h d ps))
    by (rewrite Sel; apply in_or_app; right; left; reflexivity).
  apply selection_incl, candidate_facts in Hc. apply Hc.
Qed.

Lemma assign_all_fresh (ps : list pref) (h1 : heap) (order : list dref) :
  NoDup ps -> fresh_log h1 (snd (assign_all haversine order ps h1)).
Proof.
  intros N.
  destruct (assign_all_ind haversine ps h1 (fresh_log h1))
    with (order := order) as [F _]; [ | | exact F ].
  - intros done r rest E. destruct done; discriminate E.
  - intros md d Hmd done r rest E. apply turn_prefix in E.
    destruct E as [ (l & E & El) | (s1 & s2 & Es & -> & Er) ].
    + destruct l as [ | r' l ].
      * rewrite app_nil_r in E. subst done. cbn [app] in El.
        symmetry in El. apply map_eq_cons in El.
        destruct El as (c & s2 & Es & <- & _).
        destruct c as [[p o] e].
        apply (selection_unmatched (replay h1 md) d ps [] s2 (p, o, e) N Es).
      * injection El as <- _. eapply Hmd, E.
    + symmetry in Er. apply map_eq_cons in Er.
      destruct Er as (c & s2' & -> & <- & _).
      rewrite replay_app, replay_records.
      destruct c as [[p o] e].
      apply (selection_unmatched (replay h1 md) d ps s1 s2' (p, o, e) N Es).
Qed.

(** C3. At most one match: when the pool lists every passenger object
    once, no passenger is the subject of two assignments in a run; each
    assignment hits a passenger whose [matched_driver] is still [None];
    the candidate filter of any turn only lets unmatched passengers
    through; the exhaustive pass leaves [matched_driver] alone; and once
    the field is [Some d] at some point of the run it is [Some d] at
    every later point and on return. *)
Theorem at_most_one_match (s : rng) (ds : list dref) (ps : list pref)
    (h : heap) :
  NoDup ps ->
  NoDup (map Match.passenger (match_details (match_algorithm' s ds ps h)))
  /\ fresh_log (record_rejections haversine ds ps h)
       (match_details (match_algorithm' s ds ps h))
  /\ (forall h' d c,
        In c (build_candidates haversine h' d ps) ->
        Passenger.matched_driver (psg h' (cand_passenger c)) = None)
  /\ (forall p,
        Passenger.matched_driver (psg (record_rejections haversine ds ps h) p)
        = Passenger.matched_driver (psg h p))
  /\ (forall done mid rest p d,
        match_details (match_algorithm' s ds ps h) = done ++ mid ++ rest ->
        Passenger.matched_driver
          (psg (replay (record_rejections haversine ds ps h) done) p) = Some d ->
        Passenger.matched_driver
          (psg (replay (record_rejections haversine ds ps h) (done ++ mid)) p)
        = Some d
        /\ Passenger.matched_driver
             (psg (final_heap (match_algorithm' s ds ps h)) p) = Some d).
Proof.
  intros N. rewrite match_algorithm_unfold. cbn [match_details final_heap].
  set (h1 := record_rejections haversine ds ps h).
  set (order := fst (shuffle' s ds)).
  pose proof (assign_all_fresh ps h1 order N) as F.
  set (md := snd (assign_all haversine order ps h1)) in *.
  split; [ apply (fresh_log_NoDup h1), F | ].
  split; [ exact F | ].
  split; [ intros h' d c Hc; apply candidate_facts in Hc; apply Hc | ].
  split; [ intros p; apply only_reasons_matched, record_rejections_only | ].
  intros done mid rest p d E M. split.
  - apply fresh_log_stable; [ | exact M ].
    apply (fresh_log_prefix h1 _ rest). rewrite <- app_assoc, <- E. exact F.
  - rewrite (only_reasons_matched _ _ _ (refresh_matched_only ps (replay h1 md))).
    rewrite E. apply fresh_log_stable; [ rewrite <- E; exact F | exact M ].
Qed.

Lemma turn_selection_nonneg (h : heap) (driver : dref) (ps : list pref) :
  0 <= Driver.capacity (drv h driver) ->
  turn_selection haversine h driver ps = select_candidates haversine h driver ps.
Proof.
  intros C. unfold turn_selection.
  destruct (Driver.capacity (drv h driver) =? 0) eqn:E; [ | reflexivity ].
  apply Z.eqb_eq in E. unfold select_candidates. rewrite E. reflexivity.
Qed.


(** ** Fares *)

Lemma replay_ind (I : heap -> Prop) (h1 : heap) :
  I h1 ->
  (forall hk r, I hk -> I (apply_match hk r)) ->
  forall md, I (replay h1 md).
Proof.
  intros I0 Istep md. revert h1 I0.
  induction md as [ | r md IH ]; intros h1 I0; [ exact I0 | ].
  unfold replay. cbn [fold_left]. apply IH, Istep, I0.
Qed.

Lemma ride_cost_value : (ride_cost == 45)%Q.
Proof. reflexivity. Qed.

(** Rounding does not show: the binary64 evaluation is 45.0 too. *)
Lemma ride_cost_binary64_exact : ride_cost_binary64 = 45%float.
Proof. reflexivity. Qed.

Lemma fare_apply_match (h : heap) (r : Match.t) (x : pref) :
  Passenger.fare (psg (apply_match h r) x) =
  if Nat.eqb x (Match.passenger r) then ride_cost
  else Passenger.fare (psg h x).
Proof. unfold apply_match. apply fare_assign_heap. Qed.

(** C5. Fare constancy: [ride_cost] is
    [PRICE_BASE / MAX_CAPACITY + PRICE_BASE * MARKUP_PERCENT], that is 45,
    and involves no distance; every record returned carries exactly that
    fare; and a passenger that enters the run unmatched with fare 0 ends
    with fare [ride_cost] when matched and with fare 0 when not. *)
Theorem fare_constancy (s : rng) (ds : list dref) (ps : list pref)
    (h : heap) (p : pref) :
  Passenger.matched_driver (psg h p) = None ->
  Passenger.fare (psg h p) = 0%Q ->
  (ride_cost == inject_Z PRICE_BASE / inject_Z MAX_CAPACITY
                + inject_Z PRICE_BASE * MARKUP_PERCENT)%Q
  /\ (ride_cost == 45)%Q
  /\ Forall (fun r => Match.fare r = ride_cost)
       (match_details (match_algorithm' s ds ps h))
  /\ match Passenger.matched_driver
             (psg (final_heap (match_algorithm' s ds ps h)) p) with
     | Some _ =>
         Passenger.fare (psg (final_heap (match_algorithm' s ds ps h)) p)
         = ride_cost
     | None =>
         Passenger.fare (psg (final_heap (match_algorithm' s ds ps h)) p)
         = 0%Q
     end.
Proof.
  intros M0 F0.
  split; [ reflexivity | ]. split; [ reflexivity | ].
  rewrite match_algorithm_unfold. cbn [match_details final_heap].
  set (h1 := record_rejections haversine ds ps h).
  set (order := fst (shuffle' s ds)).
  split.
  - destruct (assign_all_ind haversine ps h1
                (Forall (fun r => Match.fare r = ride_cost)))
      with (order := order) as [F _]; [ constructor | | exact F ].
    intros md d Hmd. apply Forall_app. split; [ exact Hmd | ].
    apply Forall_forall. intros r Hr. apply in_map_iff in Hr.
    destruct Hr as [[[q o] e] [<- _]]. reflexivity.
  - set (md := snd (assign_all haversine order ps h1)).
    pose proof (refresh_matched_only ps (replay h1 md)) as O.
    rewrite (only_reasons_matched _ _ _ O), (only_reasons_fare _ _ _ O).
    apply (replay_ind
             (fun hk =>
                match Passenger.matched_driver (psg hk p) with
                | Some _ => Passenger.fare (psg hk p) = ride_cost
                | None => Passenger.fare (psg hk p) = 0%Q
                end)).
    + pose proof (record_rejections_only haversine ds ps h) as O1.
      fold h1 in O1.
      rewrite (only_reasons_matched _ _ _ O1), (only_reasons_fare _ _ _ O1).
      rewrite M0. exact F0.
    + intros hk r Ik. rewrite matched_apply_match, fare_apply_match.
      destruct (Nat.eqb p (Match.passenger r)); [ reflexivity | exact Ik ].
Qed.

(** ** Determinism *)

(** C6. Determinism under a fixed seed: the generator state enters a run
    only through the order [random.shuffle] produces.  Two runs on the
    same population whose shuffles agree return the same records in the
    same order and leave the same store and the same drivers list; two
    runs from the same generator state agree on everything, the generator
    state left behind included. *)
Theorem determinism_under_fixed_seed (s1 s2 : rng) (ds : list dref)
    (ps : list pref) (h : heap) :
  fst (shuffle' s1 ds) = fst (shuffle' s2 ds) ->
  match_details (match_algorithm' s1 ds ps h)
  = match_details (match_algorithm' s2 ds ps h)
  /\ final_heap (match_algorithm' s1 ds ps h)
     = final_heap (match_algorithm' s2 ds ps h)
  /\ drivers_after (match_algorithm' s1 ds ps h)
     = drivers_after (match_algorithm' s2 ds ps h)
  /\ (s1 = s2 ->
      match_algorithm' s1 ds ps h = match_algorithm' s2 ds ps h).
Proof.
  intros E. rewrite !match_algorithm_unfold.
  cbn [match_details final_heap drivers_after]. rewrite E.
  repeat split. intros ->. reflexivity.
Qed.

(** ** The matched flag *)

Lemma analyse_unflagged (d : Driver.t) (p : Passenger.t) :
  Reason.matched (analyse haversine d p) = None.
Proof. reflexivity. Qed.

Lemma final_reasons (s : rng) (ds : list dref) (ps : list pref) (h : heap)
    (p : pref) :
  In p ps ->
  let h2 := replay (record_rejections haversine ds ps h)
              (match_details (match_algorithm' s ds ps h)) in
  Passenger.rejection_reasons (psg (final_heap (match_algorithm' s ds ps h)) p)
  = refreshed_reasons h2 p
  /\ Passenger.rejection_reasons (psg h2 p)
     = map (fun d => analyse haversine (drv h d) (psg h p)) ds
  /\ only_reasons_changed h2 (final_heap (match_algorithm' s ds ps h)).
Proof.
  intros Hp. rewrite match_algorithm_unfold. cbn [match_details final_heap].
  set (h1 := record_rejections haversine ds ps h).
  set (md := snd (assign_all haversine _ ps h1)).
  cbv zeta. split; [ | split ].
  - apply (refresh_matched_reasons (replay h1 md) ps (replay h1 md)).
    + apply only_reasons_changed_refl.
    + intros x. left. reflexivity.
    + exact Hp.
  - rewrite reasons_replay. subst h1.
    apply (record_rejections_reasons haversine h ds ps h).
    + apply only_reasons_changed_refl.
    + exact Hp.
  - apply refresh_matched_only.
Qed.

(** C7 (as the code has it). Matched-flag refresh: after
    [match_algorithm] returns, every pool passenger holds one analysis
    entry per driver; for a matched passenger every entry carries the
    ['matched'] flag, true exactly on the entries whose [driver_id] is the
    matched driver's id; the entries of an unmatched passenger carry no
    ['matched'] key. *)
Theorem matched_flag_refresh (s : rng) (ds : list dref) (ps : list pref)
    (h : heap) (p : pref) :
  In p ps ->
  length (Passenger.rejection_reasons
            (psg (final_heap (match_algorithm' s ds ps h)) p)) = length ds
  /\ flags_as_coded (final_heap (match_algorithm' s ds ps h)) p.
Proof.
  intros Hp. destruct (final_reasons s ds ps h p Hp) as (Ef & E2 & O).
  set (hf := final_heap (match_algorithm' s ds ps h)) in *.
  set (h2 := replay _ _) in *.
  unfold flags_as_coded. rewrite Ef. unfold refreshed_reasons.
  rewrite (only_reasons_matched _ _ _ O).
  destruct O as [D _].
  destruct (Passenger.matched_driver (psg h2 p)) as [ d | ].
  - rewrite length_map, E2, length_map. split; [ reflexivity | ].
    rewrite D. apply Forall_forall. intros e He.
    apply in_map_iff in He. destruct He as [e' [<- _]]. reflexivity.
  - rewrite E2, length_map. split; [ reflexivity | ].
    apply Forall_forall. intros e He.
    apply in_map_iff in He. destruct He as [d [<- _]]. reflexivity.
Qed.

(** ** The drivers list *)

(** C10. The caller's drivers list comes back shuffled: it is the
    permutation [random.shuffle] draws from the generator state, the
    driver loop runs over it in that order, and every pool passenger's
    rejection analysis, filled in before the shuffle, lists the drivers
    in the order of the list as it was passed in. *)
Theorem drivers_shuffled_in_place (s : rng) (ds : list dref)
    (ps : list pref) (h : heap) :
  drivers_after (match_algorithm' s ds ps h) = fst (shuffle' s ds)
  /\ Permutation ds (drivers_after (match_algorithm' s ds ps h))
  /\ match_details (match_algorithm' s ds ps h)
     = snd (assign_all haversine (drivers_after (match_algorithm' s ds ps h))
              ps (record_rejections haversine ds ps h))
  /\ (forall p,
        In p ps ->
        map Reason.driver_id
          (Passenger.rejection_reasons
             (psg (final_heap (match_algorithm' s ds ps h)) p))
        = map (fun d => Driver.id (drv h d)) ds).
Proof.
  split; [ | split; [ | split ] ].
  - rewrite match_algorithm_unfold. reflexivity.
  - rewrite match_algorithm_unfold. cbn [drivers_after]. apply shuffle_perm.
  - rewrite match_algorithm_unfold. reflexivity.
  - intros p Hp. destruct (final_reasons s ds ps h p Hp) as (Ef & E2 & _).
    rewrite Ef. unfold refreshed_reasons.
    destruct (Passenger.matched_driver _) as [ d | ].
    + rewrite map_map. cbn [Reason.set_matched Reason.driver_id].
      rewrite E2, map_map. reflexivity.
    + rewrite E2, map_map. reflexivity.
Qed.

(** ** The capacity scenario *)

(** Both passes apply the same thresholds. *)
Lemma analyse_is_compatible (d : Driver.t) (p : Passenger.t) :
  Reason.is_compatible (analyse haversine d p)
  = within_thresholds haversine d p
  /\ (within_thresholds haversine d p = true ->
      Reason.reasons (analyse haversine d p) = []).
Proof.
  unfold analyse, within_thresholds.
  cbn [Reason.is_compatible Reason.reasons].
  rewrite !Qle_bool_Qgtb, leb_gtb.
  destruct (Qgtb _ SEARCH_RADIUS_KM); destruct (Qgtb _ SEARCH_RADIUS_KM);
    destruct (_ >? 1); cbn; split; try reflexivity; intros H; discriminate H.
Qed.

Lemma build_candidates_only (h h' : heap) (d : dref) (ps : list pref) :
  only_reasons_changed h h' ->
  build_candidates haversine h' d ps = build_candidates haversine h d ps.
Proof.
  intros [D P]. induction ps as [ | p ps IH ]; [ reflexivity | ].
  cbn [build_candidates]. rewrite IH, D, (P p). reflexivity.
Qed.

Lemma match_record_passenger (d : dref) (sel : list candidate) :
  map Match.passenger (map (match_record d) sel) = map cand_passenger sel.
Proof.
  rewrite map_map. apply map_ext. intros [[p o] e]. reflexivity.
Qed.

Lemma filter_all {A : Type} (f : A -> bool) (l : list A) :
  (forall x, In x l -> f x = true) -> filter f l = l.
Proof.
  induction l as [ | x l IH ]; intros H; [ reflexivity | ].
  cbn [filter]. rewrite (H x) by (left; reflexivity).
  rewrite IH by (intros y Hy; apply H; right; exact Hy). reflexivity.
Qed.

Lemma NoDup_app_disjoint {A : Type} (l1 l2 : list A) (x : A) :
  NoDup (l1 ++ l2) -> In x l1 -> In x l2 -> False.
Proof.
  induction l1 as [ | y l1 IH ]; intros N H1 H2; [ destruct H1 | ].
  cbn [app] in N. inversion N as [ | y' l' Ny Nl ]; subst.
  destruct H1 as [ -> | H1 ].
  - apply Ny, in_or_app. right. exact H2.
  - apply IH; assumption.
Qed.

(** C8 (as the code has it). One driver (0,0) -> (0,1) at 8 with two
    free seats and three unmatched passengers at 8, 0.2, 0.5 and 0.9 km
    from the driver's origin with drop-offs within the radius: all three
    are candidates, the two ranked first by pickup plus drop-off distance
    are matched, in rank order, and the driver ends with capacity 0; the
    passenger ranked third stays unmatched, and its analysis entry for
    that driver is a compatible one: no reason recorded,
    [is_compatible] true, no ['matched'] key. *)
Theorem full_capacity_scenario (s : rng) (h : heap) (d : dref)
    (p1 p2 p3 : pref) :
  NoDup [p1; p2; p3] ->
  Driver.origin (drv h d) = (0%Q, 0%Q) ->
  Driver.dest (drv h d) = (0%Q, 1%Q) ->
  Driver.schedule (drv h d) = 8 ->
  Driver.capacity (drv h d) = 2 ->
  (forall p, In p [p1; p2; p3] ->
     Passenger.schedule (psg h p) = 8
     /\ Passenger.matched_driver (psg h p) = None
     /\ (haversine (0%Q, 1%Q) (Passenger.dest (psg h p)) <= 1)%Q) ->
  (haversine (0%Q, 0%Q) (Passenger.origin (psg h p1)) == 2 # 10)%Q ->
  (haversine (0%Q, 0%Q) (Passenger.origin (psg h p2)) == 5 # 10)%Q ->
  (haversine (0%Q, 0%Q) (Passenger.origin (psg h p3)) == 9 # 10)%Q ->
  let ranked :=
    sort_by_key rank_key (build_candidates haversine h d [p1; p2; p3]) in
  Permutation [p1; p2; p3] (map cand_passenger ranked)
  /\ map Match.passenger (match_details (match_algorithm' s [d] [p1; p2; p3] h))
     = map cand_passenger (firstn 2 ranked)
  /\ Driver.capacity
       (drv (final_heap (match_algorithm' s [d] [p1; p2; p3] h)) d) = 0
  /\ (forall t,
        In t (skipn 2 ranked) ->
        (forall a, In a (firstn 2 ranked) -> (rank_key a <= rank_key t)%Q)
        /\ Passenger.matched_driver
             (psg (final_heap (match_algorithm' s [d] [p1; p2; p3] h))
                  (cand_passenger t)) = None
        /\ map (fun e => (Reason.driver_id e, Reason.reasons e,
                          Reason.is_compatible e, Reason.matched e))
             (Passenger.rejection_reasons
                (psg (final_heap (match_algorithm' s [d] [p1; p2; p3] h))
                     (cand_passenger t)))
           = [(Driver.id (drv h d), [], true, None)]).
Proof.
  intros ND Ho Hd Hs Hc Hp H1 H2 H3 ranked.
  set (ps := [p1; p2; p3]) in *.
  assert (W : forall p, In p ps ->
              within_thresholds haversine (drv h d) (psg h p) = true).
  { intros p Hin. destruct (Hp p Hin) as (Sp & _ & Dp).
    unfold within_thresholds. rewrite Ho, Hd, Hs, Sp.
    apply andb_true_iff. split; [ apply andb_true_iff; split | reflexivity ];
      apply Qle_bool_iff; [ | exact Dp ].
    destruct Hin as [ <- | [ <- | [ <- | [] ] ] ];
      [ rewrite H1 | rewrite H2 | rewrite H3 ]; discriminate. }
  assert (Cp : map cand_passenger (build_candidates haversine h d ps) = ps).
  { rewrite candidates_passengers. apply filter_all. intros p Hin.
    rewrite (W p Hin). unfold is_matched.
    destruct (Hp p Hin) as (_ & -> & _). reflexivity. }
  assert (Pr : Permutation ps (map cand_passenger ranked)).
  { rewrite <- Cp at 1. apply Permutation_map, sort_by_key_perm. }
  assert (Lr : length ranked = 3%nat).
  { rewrite <- (length_map cand_passenger), <- (Permutation_length Pr).
    reflexivity. }
  pose proof (record_rejections_only haversine [d] ps h) as O1.
  set (h1 := record_rejections haversine [d] ps h) in *.
  assert (Sel : turn_selection haversine h1 d ps = firstn 2 ranked).
  { unfold turn_selection, select_candidates.
    rewrite (build_candidates_only h h1 d ps O1).
    destruct O1 as [D _]. rewrite D, Hc. reflexivity. }
  assert (Emd : match_details (match_algorithm' s [d] ps h)
                = map (match_record d) (firstn 2 ranked)).
  { rewrite match_algorithm_unfold. cbn [match_details]. fold h1.
    change (fst (shuffle' s [d])) with [d].
    unfold assign_all. cbn [fold_left].
    rewrite process_driver_log. cbn [fst snd app]. rewrite Sel. reflexivity. }
  assert (O2 : only_reasons_changed
                 (fold_left (assign_heap d) (firstn 2 ranked) h1)
                 (final_heap (match_algorithm' s [d] ps h))).
  { rewrite match_algorithm_unfold. cbn [final_heap]. fold h1.
    change (fst (shuffle' s [d])) with [d].
    rewrite <- replay_records.
    replace (snd (assign_all haversine [d] ps h1))
      with (map (match_record d) (firstn 2 ranked)).
    - apply refresh_matched_only.
    - unfold assign_all. cbn [fold_left].
      rewrite process_driver_log. cbn [fst snd app]. rewrite Sel.
      reflexivity. }
  split; [ exact Pr | ].
  split; [ rewrite Emd; apply match_record_passenger | ].
  split.
  - destruct O2 as [D2 _]. rewrite D2, drv_fold_assign_same.
    cbn [Driver.capacity]. destruct O1 as [D1 _]. rewrite D1, Hc.
    rewrite length_firstn, Lr. reflexivity.
  - intros t Ht.
    assert (Hin : In (cand_passenger t) ps).
    { eapply Permutation_in; [ apply Permutation_sym, Pr | ].
      apply in_map. rewrite <- (firstn_skipn 2 ranked).
      apply in_or_app. right. exact Ht. }
    assert (Out : ~ In (cand_passenger t)
                       (map cand_passenger (firstn 2 ranked))).
    { assert (NR : NoDup (map cand_passenger ranked))
        by (eapply Permutation_NoDup; [ exact Pr | exact ND ]).
      rewrite <- (firstn_skipn 2 ranked), map_app in NR.
      intros Hf. apply (in_map cand_passenger) in Ht.
      exact (NoDup_app_disjoint _ _ _ NR Hf Ht). }
    split; [ | split ].
    + intros a Ha. eapply sorted_split_le;
        [ apply sort_by_key_sorted | exact Ha | exact Ht ].
    + rewrite (only_reasons_matched _ _ _ O2).
      rewrite psg_fold_assign_other by exact Out.
      rewrite (only_reasons_matched _ _ _ O1).
      apply (Hp _ Hin).
    + destruct (final_reasons s [d] ps h (cand_passenger t) Hin)
        as (Ef & E2 & _).
      rewrite Ef. unfold refreshed_reasons. fold h1. rewrite Emd.
      rewrite replay_records.
      rewrite psg_fold_assign_other by exact Out.
      rewrite (only_reasons_matched _ _ _ O1).
      destruct (Hp _ Hin) as (_ & -> & _).
      fold h1 in E2. rewrite Emd, replay_records in E2.
      rewrite psg_fold_assign_other in E2 by exact Out.
      rewrite E2. cbn [map].
      destruct (analyse_is_compatible (drv h d) (psg h (cand_passenger t)))
        as [Ec Er].
      rewrite Ec, (Er (W _ Hin)), (W _ Hin). reflexivity.
Qed.

End Claims.

(** ** Statistics on an empty pool *)

Lemma percent_empty {A : Type} (a : Q) :
  percent a (len (@nil A)) = Raise ZeroDivisionError.
Proof. reflexivity. Qed.

Lemma bind_raise {A B : Type} (c : result A) (k : A -> result B) :
  (forall a, k a = Raise ZeroDivisionError) ->
  bind c k = Raise ZeroDivisionError.
Proof.
  intros H. destruct c as [ a | [] ]; [ apply H | reflexivity ].
Qed.

(** C9 (what the code does). With no drivers the occupancy division of
    [export_visualization_data] raises [ZeroDivisionError], and so does
    the first per-driver percentage of [print_matching_results], before
    the one guarded division is reached; with no passengers
    [print_matching_results] raises on its first percentage. *)
Theorem statistics_divide_by_zero (h : heap) (ds : list dref)
    (ps : list pref) :
  export_statistics [] ps h = Raise ZeroDivisionError
  /\ print_matching_results [] ps h = Raise ZeroDivisionError
  /\ print_matching_results ds [] h = Raise ZeroDivisionError.
Proof.
  split; [ reflexivity | ]. split; [ | reflexivity ].
  unfold print_matching_results.
  apply bind_raise. intros m. apply bind_raise. intros u.
  rewrite percent_empty. reflexivity.
Qed.

(** The guard that is there: with at least one driver the occupancy of
    the export is defined. *)
Lemma fleet_size_nonzero {A : Type} (x : A) (l : list A) :
  Qeq_bool (len (x :: l) * inject_Z MAX_CAPACITY) 0 = false.
Proof.
  destruct (Qeq_bool _ 0) eqn:E; [ | reflexivity ].
  apply Qeq_bool_iff in E. unfold len, Qeq in E. cbn in E. discriminate E.
Qed.

Lemma export_statistics_defined (h : heap) (d : dref) (ds : list dref)
    (ps : list pref) :
  exists st, export_statistics (d :: ds) ps h = Ok st.
Proof.
  unfold export_statistics, truediv.
  rewrite fleet_size_nonzero. cbn [bind]. eexists. reflexivity.
Qed.

(** ** The model at work *)

Ltac in_pool := cbn; intuition congruence.

Ltac nodup_pool :=
  repeat (constructor; [ cbn; intuition discriminate | ]); constructor.

Lemma capacity_invariant_init (uid : Z) (nm : string) (o dst : coord)
    (sched : Z) :
  capacity_invariant (Driver.init uid nm o dst sched).
Proof. split; [ reflexivity | discriminate ]. Qed.

Lemma capacity_invariant_witness :
  capacity_invariant (drv town_heap 1%nat)
  /\ capacity_invariant
       (drv (final_heap (run [0%nat] town_drivers town_passengers town_heap))
            1%nat).
Proof.
  assert (H : capacity_invariant (drv town_heap 1%nat))
    by (split; [ reflexivity | discriminate ]).
  split; [ exact H | ].
  exact (proj1 (proj2 (proj2 (proj2
           (capacity_invariant_preserved grid_km tape tape_randbelow
              [0%nat] town_drivers town_passengers town_heap 1%nat H))))).
Defined.

Lemma at_most_one_match_witness :
  NoDup town_passengers
  /\ NoDup (map Match.passenger
              (match_details
                 (run [0%nat] town_drivers town_passengers town_heap))).
Proof.
  assert (H : NoDup town_passengers) by (unfold town_passengers; nodup_pool).
  split; [ exact H | ].
  exact (proj1 (at_most_one_match grid_km tape tape_randbelow
                  [0%nat] town_drivers town_passengers town_heap H)).
Defined.


Lemma fare_constancy_witness :
  Passenger.matched_driver (psg town_heap 3%nat) = None
  /\ Passenger.fare (psg town_heap 3%nat) = 0%Q
  /\ Passenger.fare
       (psg (final_heap (run [0%nat] town_drivers town_passengers town_heap))
            3%nat) = ride_cost.
Proof.
  split; [ reflexivity | ]. split; [ reflexivity | ].
  exact (proj2 (proj2 (proj2
           (fare_constancy grid_km tape tape_randbelow
              [0%nat] town_drivers town_passengers town_heap 3%nat
              eq_refl eq_refl)))).
Defined.

Lemma determinism_witness :
  fst (shuffle tape tape_randbelow [0%nat] town_drivers)
  = fst (shuffle tape tape_randbelow [2%nat; 7%nat] town_drivers)
  /\ match_details (run [0%nat] town_drivers town_passengers town_heap)
     = match_details (run [2%nat; 7%nat] town_drivers town_passengers town_heap).
Proof.
  split; [ reflexivity | ].
  exact (proj1 (determinism_under_fixed_seed grid_km tape tape_randbelow
                  [0%nat] [2%nat; 7%nat] town_drivers town_passengers
                  town_heap eq_refl)).
Defined.

Lemma matched_flag_refresh_witness :
  In 5%nat town_passengers
  /\ flags_as_coded
       (final_heap (run [0%nat] town_drivers town_passengers town_heap)) 5%nat.
Proof.
  assert (H : In 5%nat town_passengers) by (unfold town_passengers; in_pool).
  split; [ exact H | ].
  exact (proj2 (matched_flag_refresh grid_km tape tape_randbelow
                  [0%nat] town_drivers town_passengers town_heap 5%nat H)).
Defined.

Lemma drivers_shuffled_witness :
  In 3%nat town_passengers
  /\ drivers_after (run [0%nat] town_drivers town_passengers town_heap)
     = [1%nat; 0%nat]
  /\ map Reason.driver_id
       (Passenger.rejection_reasons
          (psg (final_heap (run [0%nat] town_drivers town_passengers town_heap))
               3%nat))
     = [0; 1].
Proof.
  assert (H : In 3%nat town_passengers) by (unfold town_passengers; in_pool).
  split; [ exact H | ]. split.
  - exact (proj1 (drivers_shuffled_in_place grid_km tape tape_randbelow
                    [0%nat] town_drivers town_passengers town_heap)).
  - exact (proj2 (proj2 (proj2
             (drivers_shuffled_in_place grid_km tape tape_randbelow
                [0%nat] town_drivers town_passengers town_heap))) 3%nat H).
Defined.

Lemma scenario_pool_facts (p : pref) :
  In p scenario_passengers ->
  Passenger.schedule (psg scenario_heap p) = 8
  /\ Passenger.matched_driver (psg scenario_heap p) = None
  /\ (grid_km (0%Q, 1%Q) (Passenger.dest (psg scenario_heap p)) <= 1)%Q.
Proof.
  intros [ <- | [ <- | [ <- | [] ] ] ];
    (split; [ reflexivity | split; [ reflexivity | discriminate ] ]).
Defined.

Lemma full_capacity_scenario_witness :
  NoDup scenario_passengers
  /\ map Match.passenger
       (match_details (run [] scenario_drivers scenario_passengers scenario_heap))
     = [1%nat; 2%nat]
  /\ Driver.capacity
       (drv (final_heap
               (run [] scenario_drivers scenario_passengers scenario_heap))
            0%nat) = 0.
Proof.
  assert (H : NoDup scenario_passengers)
    by (unfold scenario_passengers; nodup_pool).
  split; [ exact H | ].
  pose proof (full_capacity_scenario grid_km tape tape_randbelow []
                scenario_heap 0%nat 1%nat 2%nat 0%nat H
                eq_refl eq_refl eq_refl eq_refl scenario_pool_facts
                eq_refl eq_refl eq_refl) as T.
  split; [ exact (proj1 (proj2 T)) | exact (proj1 (proj2 (proj2 T))) ].
Defined.

(** The town run: the shuffle puts driver 1 first, who takes the four
    best-ranked passengers; driver 0 gets the one that is left within
    reach; passenger 5 leaves too late for both. *)
Example town_run :
  map (fun r => (Match.driver r, Match.passenger r))
      (match_details (run [0%nat] town_drivers town_passengers town_heap))
  = [(1, 0); (1, 1); (1, 2); (1, 4); (0, 3)]%nat
  /\ map (fun p =>
            Passenger.matched_driver
              (psg (final_heap
                      (run [0%nat] town_drivers town_passengers town_heap)) p))
         town_passengers
     = [Some 1; Some 1; Some 1; Some 0; Some 1; None]%nat.
Proof. split; reflexivity. Qed.

(** ** Where the code parts from the specification *)

(** C7, the claim as worded fails: a passenger who ends unmatched keeps
    analysis entries without any ['matched'] key.  Driver at 8, passenger
    at 11 on the same route. *)
Lemma unmatched_passenger_has_no_flag :
  In 0%nat [0%nat]
  /\ Passenger.matched_driver
       (psg (final_heap (run [] [0%nat] [0%nat] late_heap)) 0%nat) = None
  /\ map Reason.matched
       (Passenger.rejection_reasons
          (psg (final_heap (run [] [0%nat] [0%nat] late_heap)) 0%nat))
     = [None]
  /\ ~ flags_as_claimed (final_heap (run [] [0%nat] [0%nat] late_heap)) 0%nat.
Proof.
  split; [ left; reflexivity | ].
  split; [ reflexivity | ]. split; [ reflexivity | ].
  intros F. unfold flags_as_claimed in F.
  apply (Forall_map Reason.matched (fun m => m = Some false)) in F.
  change (Forall (fun m => m = Some false) [@None bool]) in F.
  inversion F as [ | m l Hm _ ]. discriminate Hm.
Qed.

(** C8, the claim as worded fails: in the capacity scenario the passenger
    left without a seat has no reason recorded against the driver; the
    entry says compatible. *)
Lemma no_capacity_reason_recorded :
  Passenger.matched_driver
    (psg (final_heap
            (run [] scenario_drivers scenario_passengers scenario_heap))
         0%nat) = None
  /\ map (fun e => (Reason.reasons e, Reason.is_compatible e))
       (Passenger.rejection_reasons
          (psg (final_heap
                  (run [] scenario_drivers scenario_passengers scenario_heap))
               0%nat))
     = [([], true)]
  /\ ~ reason_recorded
         (final_heap
            (run [] scenario_drivers scenario_passengers scenario_heap))
         0%nat.
Proof.
  split; [ reflexivity | ]. split; [ reflexivity | ].
  intros [e [He Hr]]. apply (in_map Reason.reasons) in He.
  change (In (Reason.reasons e) [[]]) in He.
  destruct He as [ E | [] ]. apply Hr. symmetry. exact E.
Qed.

(** C9 at the failing input: an empty pool. *)
Lemma empty_pool_raises :
  export_statistics [] [] town_heap = Raise ZeroDivisionError
  /\ print_matching_results [] [] town_heap = Raise ZeroDivisionError.
Proof. split; reflexivity. Qed.

(** * Further properties of the matcher and its reports *)

(** ** The log and the store it leaves *)

Lemma psg_replay_other (md : list Match.t) (h : heap) (x : pref) :
  ~ In x (map Match.passenger md) -> psg (replay h md) x = psg h x.
Proof.
  revert h. induction md as [ | r md IH ]; intros h N; [ reflexivity | ].
  unfold replay in *. cbn [fold_left map] in *.
  rewrite IH by (intros H; apply N; right; exact H).
  unfold apply_match. rewrite psg_assign_heap. cbn [fst snd].
  destruct (Nat.eqb x (Match.passenger r)) eqn:E; [ | reflexivity ].
  apply Nat.eqb_eq in E. exfalso. apply N. left. symmetry. exact E.
Qed.

Lemma matched_apply_match_keeps (h : heap) (r : Match.t) (x : pref) :
  Passenger.matched_driver (psg h x) <> None ->
  Passenger.matched_driver (psg (apply_match h r) x) <> None.
Proof.
  intros M. rewrite matched_apply_match.
  destruct (Nat.eqb x (Match.passenger r)); [ discriminate | exact M ].
Qed.

Lemma matched_replay_keeps (md : list Match.t) (h : heap) (x : pref) :
  Passenger.matched_driver (psg h x) <> None ->
  Passenger.matched_driver (psg (replay h md) x) <> None.
Proof.
  intros M. apply (replay_ind
                     (fun hk => Passenger.matched_driver (psg hk x) <> None));
    [ exact M | ].
  intros hk r Hk. apply matched_apply_match_keeps, Hk.
Qed.

Lemma matched_replay_in (md : list Match.t) (h : heap) (x : pref) :
  In x (map Match.passenger md) ->
  Passenger.matched_driver (psg (replay h md) x) <> None.
Proof.
  intros Hin. apply in_map_iff in Hin. destruct Hin as [r [<- Hr]].
  apply in_split in Hr. destruct Hr as (a & b & ->).
  replace (a ++ r :: b) with ((a ++ [r]) ++ b)
    by (rewrite <- app_assoc; reflexivity).
  rewrite replay_app. apply matched_replay_keeps.
  rewrite replay_snoc, matched_apply_match, Nat.eqb_refl. discriminate.
Qed.

Lemma drv_apply_match (h : heap) (r : Match.t) (d : dref) :
  drv (apply_match h r) d =
  if Nat.eqb d (Match.driver r)
  then Driver.decr_capacity
         (Driver.append_passenger (drv h (Match.driver r)) (Match.passenger r))
  else drv h d.
Proof. unfold apply_match. rewrite drv_assign_heap. reflexivity. Qed.

(** A driver's seats are the log read for that driver. *)
Lemma drv_replay (md : list Match.t) (h : heap) (d : dref) :
  Driver.passengers (drv (replay h md) d)
  = Driver.passengers (drv h d)
    ++ map Match.passenger
         (filter (fun r => Nat.eqb (Match.driver r) d) md)
  /\ Driver.capacity (drv (replay h md) d)
     = Driver.capacity (drv h d)
       - Z.of_nat (length (filter (fun r => Nat.eqb (Match.driver r) d) md)).
Proof.
  revert h. induction md as [ | r md IH ]; intros h.
  - cbn. rewrite app_nil_r, Z.sub_0_r. split; reflexivity.
  - unfold replay in *. cbn [fold_left filter].
    destruct (IH (apply_match h r)) as [Ep Ec]. rewrite Ep, Ec.
    rewrite drv_apply_match, (Nat.eqb_sym d).
    destruct (Nat.eqb (Match.driver r) d) eqn:E.
    + apply Nat.eqb_eq in E. subst d.
      cbn [Driver.decr_capacity Driver.append_passenger Driver.passengers
           Driver.capacity map length].
      rewrite <- app_assoc. split; [ reflexivity | lia ].
    + split; reflexivity.
Qed.

Lemma record_fields_replay (md : list Match.t) (h : heap) (r : Match.t) :
  NoDup (map Match.passenger md) ->
  In r md ->
  Match.fare r = ride_cost ->
  Passenger.matched_driver (psg (replay h md) (Match.passenger r))
  = Some (Match.driver r)
  /\ Passenger.pickup_distance (psg (replay h md) (Match.passenger r))
     = Some (Match.pickup_dist r)
  /\ Passenger.dropoff_distance (psg (replay h md) (Match.passenger r))
     = Some (Match.dropoff_dist r)
  /\ Passenger.fare (psg (replay h md) (Match.passenger r)) = Match.fare r.
Proof.
  intros ND Hr Hf. apply in_split in Hr. destruct Hr as (a & b & ->).
  rewrite map_app in ND. cbn [map] in ND.
  pose proof (NoDup_remove_2 _ _ _ ND) as Out.
  replace (a ++ r :: b) with ((a ++ [r]) ++ b)
    by (rewrite <- app_assoc; reflexivity).
  rewrite replay_app, psg_replay_other
    by (intros H; apply Out, in_or_app; right; exact H).
  rewrite replay_snoc. unfold apply_match. rewrite psg_assign_heap.
  cbn [fst snd]. rewrite Nat.eqb_refl, Hf. repeat split; reflexivity.
Qed.

Section LoopFacts.
Variable haversine : coord -> coord -> Q.

Lemma within_thresholds_static (h h' : heap) (d : dref) (p : pref) :
  same_static h h' ->
  within_thresholds haversine (drv h' d) (psg h' p)
  = within_thresholds haversine (drv h d) (psg h p).
Proof.
  intros S. unfold within_thresholds.
  destruct (static_driver_fields h h' d S) as (_ & -> & -> & ->).
  destruct (static_passenger_fields h h' p S) as (-> & -> & ->).
  reflexivity.
Qed.

Lemma candidate_in (h : heap) (d : dref) (ps : list pref) (p : pref) :
  In p ps ->
  Passenger.matched_driver (psg h p) = None ->
  within_thresholds haversine (drv h d) (psg h p) = true ->
  In p (map cand_passenger (build_candidates haversine h d ps)).
Proof.
  intros Hp M W. rewrite candidates_passengers. apply filter_In.
  split; [ exact Hp | ]. unfold is_matched. rewrite M, W. reflexivity.
Qed.

Lemma turn_keeps_matched (h : heap) (d : dref) (sel : list candidate)
    (x : pref) :
  Passenger.matched_driver (psg h x) <> None ->
  Passenger.matched_driver (psg (fold_left (assign_heap d) sel h) x) <> None.
Proof.
  intros M. rewrite <- replay_records. apply matched_replay_keeps, M.
Qed.

Lemma turn_matches_selected (h : heap) (d : dref) (sel : list candidate)
    (x : pref) :
  In x (map cand_passenger sel) ->
  Passenger.matched_driver (psg (fold_left (assign_heap d) sel h) x) <> None.
Proof.
  intros Hin. rewrite <- replay_records. apply matched_replay_in.
  rewrite match_record_passenger. exact Hin.
Qed.

Lemma turn_capacity (h : heap) (d d' : dref) (ps : list pref) :
  0 <= Driver.capacity (drv h d) ->
  0 <= Driver.capacity
         (drv (fold_left (assign_heap d')
                 (turn_selection haversine h d' ps) h) d)
  /\ (Driver.capacity (drv h d) = 0 ->
      Driver.capacity
        (drv (fold_left (assign_heap d')
                (turn_selection haversine h d' ps) h) d) = 0).
Proof.
  intros C. destruct (Nat.eq_dec d d') as [ <- | N ].
  - pose proof (selection_length haversine h d ps C) as L.
    rewrite drv_fold_assign_same. cbn [Driver.capacity].
    split; [ lia | ]. intros Z0. unfold turn_selection.
    rewrite Z0. reflexivity.
  - rewrite drv_fold_assign_other by exact N. split; [ exact C | tauto ].
Qed.

(** A driver's own turn ends with the passenger taken or the car full. *)
Lemma own_turn_maximal (h : heap) (d : dref) (ps : list pref) (p : pref) :
  In p ps ->
  0 <= Driver.capacity (drv h d) ->
  within_thresholds haversine (drv h d) (psg h p) = true ->
  Passenger.matched_driver
    (psg (fold_left (assign_heap d) (turn_selection haversine h d ps) h) p)
  <> None
  \/ Driver.capacity
       (drv (fold_left (assign_heap d) (turn_selection haversine h d ps) h) d)
     = 0.
Proof.
  intros Hp C W.
  destruct (Passenger.matched_driver (psg h p)) as [ d0 | ] eqn:M.
  { left. apply turn_keeps_matched. rewrite M. discriminate. }
  pose proof (candidate_in h d ps p Hp M W) as Hc.
  rewrite turn_selection_nonneg by exact C.
  unfold select_candidates. rewrite py_slice_to_nonneg by exact C.
  set (ranked := sort_by_key rank_key (build_candidates haversine h d ps)).
  assert (Hr : In p (map cand_passenger ranked)).
  { eapply Permutation_in; [ | exact Hc ].
    apply Permutation_map, sort_by_key_perm. }
  destruct (Nat.le_gt_cases (Z.to_nat (Driver.capacity (drv h d)))
              (length ranked)) as [ L | G ].
  - right. rewrite Nat.min_l by exact L.
    rewrite drv_fold_assign_same. cbn [Driver.capacity].
    rewrite length_firstn, Nat.min_l by exact L. lia.
  - left. rewrite Nat.min_r by lia. rewrite firstn_all.
    apply turn_matches_selected, Hr.
Qed.

Lemma loop_maximal (ps : list pref) (d : dref) (p : pref) (h0 : heap) :
  In p ps ->
  within_thresholds haversine (drv h0 d) (psg h0 p) = true ->
  forall order st,
    same_static h0 (fst st) ->
    0 <= Driver.capacity (drv (fst st) d) ->
    In d order
    \/ Passenger.matched_driver (psg (fst st) p) <> None
    \/ Driver.capacity (drv (fst st) d) = 0 ->
    Passenger.matched_driver
      (psg (fst (fold_left (process_driver haversine ps) order st)) p) <> None
    \/ Driver.capacity
         (drv (fst (fold_left (process_driver haversine ps) order st)) d) = 0.
Proof.
  intros Hp W order.
  induction order as [ | d' order IH ]; intros st S C H; cbn [fold_left].
  - destruct H as [ [] | H ]. exact H.
  - apply IH; rewrite process_driver_log; cbn [fst snd].
    + eapply same_static_trans; [ exact S | apply fold_assign_heap_static ].
    + apply turn_capacity, C.
    + destruct H as [ [ -> | Hin ] | [ M | Z0 ] ].
      * right. apply own_turn_maximal; [ exact Hp | exact C | ].
        rewrite (within_thresholds_static h0 (fst st) d p S). exact W.
      * left. exact Hin.
      * right. left. apply turn_keeps_matched, M.
      * right. right. apply (turn_capacity (fst st) d d' ps C), Z0.
Qed.

(** The induction over the log, keeping track of whose turn it is. *)
Lemma assign_all_ind_in (ps : list pref) (h1 : heap) (order : list dref)
    (P : list Match.t -> Prop) :
  P [] ->
  (forall md d,
     In d order -> P md ->
     P (md ++ map (match_record d)
                  (turn_selection haversine (replay h1 md) d ps))) ->
  P (snd (assign_all haversine order ps h1)).
Proof.
  intros P0 Pstep. unfold assign_all.
  assert (G : forall l st,
             incl l order -> P (snd st) -> fst st = replay h1 (snd st) ->
             P (snd (fold_left (process_driver haversine ps) l st))).
  { induction l as [ | d l IH ]; intros st I Pst Est; cbn [fold_left];
      [ exact Pst | ].
    apply IH.
    - intros x Hx. apply I. right. exact Hx.
    - rewrite process_driver_log. cbn [fst snd]. rewrite Est.
      apply Pstep; [ apply I; left; reflexivity | exact Pst ].
    - rewrite process_driver_log. cbn [fst snd]. rewrite Est.
      rewrite replay_app, replay_records. reflexivity. }
  apply G; [ apply incl_refl | exact P0 | reflexivity ].
Qed.

Lemma records_in_pool (ps : list pref) (h1 : heap) (order : list dref) :
  Forall (fun r => In (Match.driver r) order /\ In (Match.passenger r) ps)
         (snd (assign_all haversine order ps h1)).
Proof.
  apply assign_all_ind_in; [ constructor | ].
  intros md d Hd Hmd. apply Forall_app. split; [ exact Hmd | ].
  apply Forall_forall. intros r Hr. apply in_map_iff in Hr.
  destruct Hr as [c [<- Hc]].
  apply selection_incl, candidate_facts in Hc.
  destruct c as [[p o] e]. cbn. split; [ exact Hd | apply Hc ].
Qed.

End LoopFacts.

Section Further.
Variable haversine : coord -> coord -> Q.
Variable rng : Type.
Variable randbelow : nat -> rng -> nat * rng.

Local Abbreviation match_algorithm' := (match_algorithm haversine rng randbelow).
Local Abbreviation shuffle' := (shuffle rng randbelow).

(** X1. Greedy maximality: when [match_algorithm] returns, no pool
    passenger is left unmatched next to a listed driver who is within all
    three thresholds of it and still has a free seat (the driver entering
    with a non-negative capacity). *)
Theorem greedy_maximality (s : rng) (ds : list dref) (ps : list pref)
    (h : heap) (d : dref) (p : pref) :
  In d ds -> In p ps ->
  0 <= Driver.capacity (drv h d) ->
  within_thresholds haversine (drv h d) (psg h p) = true ->
  Passenger.matched_driver
    (psg (final_heap (match_algorithm' s ds ps h)) p) = None ->
  Driver.capacity (drv (final_heap (match_algorithm' s ds ps h)) d) = 0.
Proof.
  intros Hd Hp C W. rewrite match_algorithm_unfold. cbn [final_heap].
  set (h1 := record_rejections haversine ds ps h).
  set (order := fst (shuffle' s ds)).
  pose proof (record_rejections_only haversine ds ps h) as O1. fold h1 in O1.
  destruct (assign_all_ind haversine ps h1 (fun _ => True) I (fun _ _ _ => I)
              order) as [_ E].
  rewrite <- E.
  pose proof (refresh_matched_only ps (fst (assign_all haversine order ps h1)))
    as O2.
  rewrite (only_reasons_matched _ _ _ O2). destruct O2 as [D2 _]. rewrite D2.
  intros M.
  destruct (loop_maximal haversine ps d p h1 Hp) with (order := order)
                                                      (st := (h1, @nil Match.t))
    as [ M' | Z0 ].
  - rewrite (within_thresholds_static haversine h h1 d p
               (only_reasons_static _ _ O1)). exact W.
  - apply same_static_refl.
  - cbn [fst]. destruct O1 as [D1 _]. rewrite D1. exact C.
  - left. eapply Permutation_in; [ apply shuffle_perm | exact Hd ].
  - exfalso. apply M'. exact M.
  - exact Z0.
Qed.

(** X2. Seats follow the log: on return each driver's [passengers] list
    is what it was on entry followed by the passengers of the returned
    records that name this driver, in record order, and its capacity has
    dropped by the number of those records. *)
Theorem seats_follow_log (s : rng) (ds : list dref) (ps : list pref)
    (h : heap) (d : dref) :
  Driver.passengers (drv (final_heap (match_algorithm' s ds ps h)) d)
  = Driver.passengers (drv h d)
    ++ map Match.passenger
         (filter (fun r => Nat.eqb (Match.driver r) d)
                 (match_details (match_algorithm' s ds ps h)))
  /\ Driver.capacity (drv (final_heap (match_algorithm' s ds ps h)) d)
     = Driver.capacity (drv h d)
       - Z.of_nat
           (length (filter (fun r => Nat.eqb (Match.driver r) d)
                           (match_details (match_algorithm' s ds ps h)))).
Proof.
  rewrite match_algorithm_unfold. cbn [final_heap match_details].
  set (h1 := record_rejections haversine ds ps h).
  set (md := snd (assign_all haversine _ ps h1)).
  destruct (refresh_matched_only ps (replay h1 md)) as [D2 _].
  destruct (record_rejections_only haversine ds ps h) as [D1 _]. fold h1 in D1.
  rewrite D2. destruct (drv_replay md h1 d) as [Ep Ec].
  rewrite Ep, Ec, D1. split; reflexivity.
Qed.

(** X3. Records agree with the passengers they name: when the pool lists
    every passenger once, each returned record's passenger ends with
    [matched_driver], [pickup_distance], [dropoff_distance] and [fare]
    equal to the record's driver, distances and fare. *)
Theorem records_agree_with_passengers (s : rng) (ds : list dref)
    (ps : list pref) (h : heap) (r : Match.t) :
  NoDup ps ->
  In r (match_details (match_algorithm' s ds ps h)) ->
  let p := psg (final_heap (match_algorithm' s ds ps h)) (Match.passenger r) in
  Passenger.matched_driver p = Some (Match.driver r)
  /\ Passenger.pickup_distance p = Some (Match.pickup_dist r)
  /\ Passenger.dropoff_distance p = Some (Match.dropoff_dist r)
  /\ Passenger.fare p = Match.fare r.
Proof.
  intros ND. rewrite match_algorithm_unfold. cbn [final_heap match_details].
  set (h1 := record_rejections haversine ds ps h).
  set (order := fst (shuffle' s ds)).
  pose proof (assign_all_fresh haversine ps h1 order ND) as F.
  set (md := snd (assign_all haversine order ps h1)) in *.
  intros Hr.
  assert (Hf : Match.fare r = ride_cost).
  { destruct (assign_all_ind haversine ps h1
                (Forall (fun r => Match.fare r = ride_cost)))
      with (order := order) as [A _].
    - constructor.
    - intros md' d Hmd. apply Forall_app. split; [ exact Hmd | ].
      apply Forall_forall. intros r' Hr'. apply in_map_iff in Hr'.
      destruct Hr' as [[[q o] e] [<- _]]. reflexivity.
    - fold md in A. rewrite Forall_forall in A. apply A, Hr. }
  destruct (record_fields_replay md h1 r (fresh_log_NoDup h1 md F) Hr Hf)
    as (E1 & E2 & E3 & E4).
  destruct (refresh_matched_only ps (replay h1 md)) as [_ P2].
  cbv zeta. rewrite (P2 (Match.passenger r)).
  cbn [Passenger.set_rejection_reasons Passenger.matched_driver
       Passenger.pickup_distance Passenger.dropoff_distance Passenger.fare].
  repeat split; assumption.
Qed.

(** X4. Matched means recorded: a pool passenger that enters unmatched is
    matched on return exactly when some returned record names it; and
    every record names a listed driver and a pool passenger. *)
Theorem matched_iff_recorded (s : rng) (ds : list dref) (ps : list pref)
    (h : heap) (p : pref) :
  Passenger.matched_driver (psg h p) = None ->
  (Passenger.matched_driver
     (psg (final_heap (match_algorithm' s ds ps h)) p) <> None
   <-> In p (map Match.passenger (match_details (match_algorithm' s ds ps h))))
  /\ Forall (fun r => In (Match.driver r) ds /\ In (Match.passenger r) ps)
       (match_details (match_algorithm' s ds ps h)).
Proof.
  intros M0. rewrite match_algorithm_unfold. cbn [final_heap match_details].
  set (h1 := record_rejections haversine ds ps h).
  set (order := fst (shuffle' s ds)).
  set (md := snd (assign_all haversine order ps h1)).
  pose proof (record_rejections_only haversine ds ps h) as O1. fold h1 in O1.
  pose proof (refresh_matched_only ps (replay h1 md)) as O2.
  rewrite (only_reasons_matched _ _ _ O2).
  split; [ split | ].
  - intros M. destruct (in_dec Nat.eq_dec p (map Match.passenger md))
      as [ Hin | Out ]; [ exact Hin | ].
    exfalso. apply M. rewrite psg_replay_other by exact Out.
    rewrite (only_reasons_matched _ _ _ O1). exact M0.
  - apply matched_replay_in.
  - eapply Forall_impl; [ | apply records_in_pool ].
    intros r [Hd Hp]. split; [ | exact Hp ].
    eapply Permutation_in; [ apply Permutation_sym, shuffle_perm | exact Hd ].
Qed.

Lemma log_sound (ps : list pref) (h1 : heap) (order : list dref) :
  Forall (sound_match haversine h1) (snd (assign_all haversine order ps h1)).
Proof.
  destruct (assign_all_ind haversine ps h1 (Forall (sound_match haversine h1)))
    with (order := order) as [F _]; [ constructor | | exact F ].
  intros md d Hmd. apply Forall_app. split; [ exact Hmd | ].
  apply selection_sound.
Qed.

Lemma sound_match_within (h : heap) (r : Match.t) :
  sound_match haversine h r ->
  within_thresholds haversine (drv h (Match.driver r))
    (psg h (Match.passenger r)) = true.
Proof.
  intros (Eo & Ed & Lo & Ld & Ls). unfold within_thresholds.
  rewrite <- Eo, <- Ed.
  apply andb_true_iff. split; [ apply andb_true_iff; split | ].
  - apply Qle_bool_iff, Lo.
  - apply Qle_bool_iff, Ld.
  - apply Z.leb_le, Ls.
Qed.

Lemma reasons_empty_iff (d : Driver.t) (p : Passenger.t) :
  Reason.reasons (analyse haversine d p) = []
  <-> Reason.is_compatible (analyse haversine d p) = true.
Proof.
  unfold analyse. cbn [Reason.reasons Reason.is_compatible].
  destruct (_ ++ _) as [ | m l ]; cbn; split; intros H;
    try reflexivity; discriminate H.
Qed.

(** X5. The analysis agrees with the filter: on return, for a pool
    passenger the i-th analysis entry belongs to the i-th driver of the
    list as passed in; it holds that driver's id and the two haversine
    distances; it says compatible exactly when it lists no reason, exactly
    when the three thresholds hold, and exactly when the passenger, as
    long as it is unmatched, passes that driver's candidate filter. *)
Theorem analysis_agrees_with_filter (s : rng) (ds : list dref)
    (ps : list pref) (h : heap) (p : pref) (i : nat) (d : dref) :
  In p ps ->
  nth_error ds i = Some d ->
  exists e,
    nth_error (Passenger.rejection_reasons
                 (psg (final_heap (match_algorithm' s ds ps h)) p)) i = Some e
    /\ Reason.driver_id e = Driver.id (drv h d)
    /\ Reason.pickup_distance e
       = haversine (Driver.origin (drv h d)) (Passenger.origin (psg h p))
    /\ Reason.dropoff_distance e
       = haversine (Driver.dest (drv h d)) (Passenger.dest (psg h p))
    /\ Reason.is_compatible e
       = within_thresholds haversine (drv h d) (psg h p)
    /\ (Reason.reasons e = [] <-> Reason.is_compatible e = true)
    /\ (forall hk,
          same_static h hk ->
          Passenger.matched_driver (psg hk p) = None ->
          (In p (map cand_passenger (build_candidates haversine hk d ps))
           <-> Reason.is_compatible e = true)).
Proof.
  intros Hp Hi. destruct (final_reasons haversine rng randbelow s ds ps h p Hp)
    as (Ef & E2 & _).
  set (h2 := replay _ _) in *.
  rewrite Ef. unfold refreshed_reasons. rewrite E2.
  set (a := analyse haversine (drv h d) (psg h p)).
  assert (Hfilter : forall hk,
             same_static h hk ->
             Passenger.matched_driver (psg hk p) = None ->
             (In p (map cand_passenger (build_candidates haversine hk d ps))
              <-> Reason.is_compatible a = true)).
  { intros hk S M. subst a.
    rewrite (proj1 (analyse_is_compatible haversine (drv h d) (psg h p))).
    rewrite <- (within_thresholds_static haversine h hk d p S).
    split.
    - intros Hin. apply in_map_iff in Hin. destruct Hin as [c [<- Hc]].
      apply candidate_facts in Hc. apply Hc.
    - apply candidate_in; assumption. }
  destruct (Passenger.matched_driver _) as [ m | ].
  - exists (Reason.set_matched a
              (Reason.driver_id a =? Driver.id (drv h2 m))).
    split; [ rewrite !nth_error_map, Hi; reflexivity | ].
    cbn [Reason.set_matched Reason.driver_id Reason.pickup_distance
         Reason.dropoff_distance Reason.is_compatible Reason.reasons].
    repeat split; try reflexivity;
      try apply (analyse_is_compatible haversine);
      try apply reasons_empty_iff; apply Hfilter; assumption.
  - exists a. split; [ rewrite nth_error_map, Hi; reflexivity | ].
    repeat split; try reflexivity;
      try apply (analyse_is_compatible haversine);
      try apply reasons_empty_iff; apply Hfilter; assumption.
Qed.

(** X6. Every match is explained: when the pool lists every passenger
    once, the passenger of each returned record ends with an analysis
    entry for the record's driver that carries the driver's id and the
    record's two distances, lists no reason, says compatible and is
    flagged matched. *)
Theorem match_is_explained (s : rng) (ds : list dref) (ps : list pref)
    (h : heap) (r : Match.t) :
  NoDup ps ->
  In r (match_details (match_algorithm' s ds ps h)) ->
  exists e,
    In e (Passenger.rejection_reasons
            (psg (final_heap (match_algorithm' s ds ps h)) (Match.passenger r)))
    /\ Reason.driver_id e = Driver.id (drv h (Match.driver r))
    /\ Reason.pickup_distance e = Match.pickup_dist r
    /\ Reason.dropoff_distance e = Match.dropoff_dist r
    /\ Reason.reasons e = []
    /\ Reason.is_compatible e = true
    /\ Reason.matched e = Some true.
Proof.
  intros ND Hr.
  assert (Hpool : In (Match.driver r) ds /\ In (Match.passenger r) ps).
  { revert Hr. rewrite match_algorithm_unfold. cbn [match_details]. intros Hr.
    pose proof (records_in_pool haversine ps
                  (record_rejections haversine ds ps h)
                  (fst (shuffle' s ds))) as F.
    rewrite Forall_forall in F. destruct (F r Hr) as [Hd Hp].
    split; [ | exact Hp ].
    eapply Permutation_in; [ apply Permutation_sym, shuffle_perm | exact Hd ]. }
  destruct Hpool as [Hd Hp].
  destruct (final_reasons haversine rng randbelow s ds ps h _ Hp)
    as (Ef & E2 & _).
  rewrite Ef. unfold refreshed_reasons. rewrite E2. clear Ef E2.
  revert Hr. rewrite match_algorithm_unfold. cbn [match_details].
  set (h1 := record_rejections haversine ds ps h).
  set (order := fst (shuffle' s ds)).
  pose proof (assign_all_fresh haversine ps h1 order ND) as F.
  pose proof (log_sound ps h1 order) as Snd.
  set (md := snd (assign_all haversine order ps h1)) in *.
  intros Hr.
  pose proof (record_rejections_only haversine ds ps h) as O1. fold h1 in O1.
  rewrite Forall_forall in Snd. specialize (Snd r Hr).
  apply (sound_match_static haversine h1 h) in Snd;
    [ | apply same_static_sym, only_reasons_static, O1 ].
  assert (Hf : Match.fare r = ride_cost).
  { destruct (assign_all_ind haversine ps h1
                (Forall (fun r => Match.fare r = ride_cost)))
      with (order := order) as [A _].
    - constructor.
    - intros md' d Hmd. apply Forall_app. split; [ exact Hmd | ].
      apply Forall_forall. intros r' Hr'. apply in_map_iff in Hr'.
      destruct Hr' as [[[q o] e] [<- _]]. reflexivity.
    - fold md in A. rewrite Forall_forall in A. apply A, Hr. }
  destruct (record_fields_replay md h1 r (fresh_log_NoDup h1 md F) Hr Hf)
    as (E1 & _).
  rewrite E1.
  set (a := analyse haversine (drv h (Match.driver r))
              (psg h (Match.passenger r))).
  exists (Reason.set_matched a
            (Reason.driver_id a =? Driver.id (drv (replay h1 md) (Match.driver r)))).
  split.
  - apply in_map_iff. exists a. split; [ reflexivity | ].
    apply in_map_iff. exists (Match.driver r). split; [ reflexivity | exact Hd ].
  - cbn [Reason.set_matched Reason.driver_id Reason.pickup_distance
         Reason.dropoff_distance Reason.is_compatible Reason.reasons
         Reason.matched].
    pose proof (sound_match_within h r Snd) as W.
    destruct (analyse_is_compatible haversine (drv h (Match.driver r))
                (psg h (Match.passenger r))) as [Ec Er].
    destruct Snd as (Eo & Ed & _).
    assert (Eid : Driver.id (drv (replay h1 md) (Match.driver r))
                  = Driver.id (drv h (Match.driver r))).
    { apply (static_driver_fields h (replay h1 md)).
      eapply same_static_trans;
        [ apply only_reasons_static, O1 | apply replay_static ]. }
    rewrite Eid. subst a.
    split; [ reflexivity | ]. split; [ symmetry; exact Eo | ].
    split; [ symmetry; exact Ed | ]. split; [ apply Er, W | ].
    split; [ rewrite Ec; exact W | ].
    cbn [analyse Reason.driver_id]. rewrite Z.eqb_refl. reflexivity.
Qed.

(** ** Counting seats and passengers *)

Lemma sumZ_plus {A : Type} (f g : A -> Z) (l : list A) :
  sumZ (fun x => f x + g x) l = sumZ f l + sumZ g l.
Proof.
  induction l as [ | x l IH ]; cbn; [ reflexivity | ].
  unfold sumZ in *. rewrite IH. lia.
Qed.

Lemma sumZ_ext {A : Type} (f g : A -> Z) (l : list A) :
  (forall x, In x l -> f x = g x) -> sumZ f l = sumZ g l.
Proof.
  induction l as [ | x l IH ]; intros H; cbn; [ reflexivity | ].
  unfold sumZ in *. rewrite (H x) by (left; reflexivity).
  rewrite IH by (intros y Hy; apply H; right; exact Hy). reflexivity.
Qed.

Lemma sumZ_indicator (x : nat) (l : list nat) :
  NoDup l -> In x l ->
  sumZ (fun d => if Nat.eqb x d then 1 else 0) l = 1.
Proof.
  induction 1 as [ | y l Ny Nl IH ]; intros Hin; [ destruct Hin | ].
  unfold sumZ in *. cbn [fold_right].
  destruct Hin as [ -> | Hin ].
  - rewrite Nat.eqb_refl.
    replace (fold_right _ 0 l) with 0; [ reflexivity | ].
    symmetry. clear IH Nl. induction l as [ | z l IHl ]; [ reflexivity | ].
    cbn [fold_right]. rewrite IHl by (intros H; apply Ny; right; exact H).
    destruct (Nat.eqb x z) eqn:E; [ | reflexivity ].
    apply Nat.eqb_eq in E. exfalso. apply Ny. left. symmetry. exact E.
  - rewrite (IH Hin).
    destruct (Nat.eqb x y) eqn:E; [ | reflexivity ].
    apply Nat.eqb_eq in E. subst y. contradiction.
Qed.

(** Counting the records driver by driver counts each record once. *)
Lemma count_by_driver (l : list dref) (md : list Match.t) :
  NoDup l ->
  Forall (fun r => In (Match.driver r) l) md ->
  sumZ (fun d =>
          Z.of_nat (length (filter (fun r => Nat.eqb (Match.driver r) d) md)))
       l
  = Z.of_nat (length md).
Proof.
  intros ND. induction 1 as [ | r md Hr _ IH ].
  - cbn [filter length]. induction l as [ | d l IHl ]; [ reflexivity | ].
    unfold sumZ in *. cbn [fold_right].
    rewrite IHl by (inversion ND; assumption). reflexivity.
  - rewrite (sumZ_ext _
               (fun d =>
                  (if Nat.eqb (Match.driver r) d then 1 else 0)
                  + Z.of_nat
                      (length (filter (fun r => Nat.eqb (Match.driver r) d) md)))).
    + rewrite sumZ_plus, IH, (sumZ_indicator _ _ ND Hr). cbn [length]. lia.
    + intros d _. cbn [filter].
      destruct (Nat.eqb (Match.driver r) d); cbn [length]; lia.
Qed.

Lemma Qsum_inject {A : Type} (f : A -> Z) (l : list A) :
  (fold_right (fun x acc => inject_Z (f x) + acc) 0 l == inject_Z (sumZ f l))%Q.
Proof.
  induction l as [ | x l IH ]; [ reflexivity | ].
  unfold sumZ in *. cbn [fold_right]. rewrite IH, <- inject_Z_plus.
  reflexivity.
Qed.

Lemma Qsum_constant {A : Type} (f : A -> Q) (c : Q) (l : list A) :
  (forall x, In x l -> f x = c) ->
  (fold_right (fun x acc => f x + acc) 0 l == c * len l)%Q.
Proof.
  unfold len. induction l as [ | x l IH ]; intros H.
  - cbn. rewrite Qmult_0_r. reflexivity.
  - cbn [fold_right]. rewrite (H x) by (left; reflexivity).
    rewrite IH by (intros y Hy; apply H; right; exact Hy).
    cbn [length]. rewrite Nat2Z.inj_succ, <- Z.add_1_l, inject_Z_plus.
    rewrite Qmult_plus_distr_r, Qmult_1_r. reflexivity.
Qed.

Lemma sumZ_perm {A : Type} (f : A -> Z) (l l' : list A) :
  Permutation l l' -> sumZ f l = sumZ f l'.
Proof.
  unfold sumZ. induction 1; cbn [fold_right]; lia.
Qed.

Lemma loop_capacity_nonneg (ps : list pref) (d : dref) (order : list dref)
    (st : heap * list Match.t) :
  0 <= Driver.capacity (drv (fst st) d) ->
  0 <= Driver.capacity
         (drv (fst (fold_left (process_driver haversine ps) order st)) d).
Proof.
  revert st. induction order as [ | d' order IH ]; intros st C;
    cbn [fold_left]; [ exact C | ].
  apply IH. rewrite process_driver_log. cbn [fst].
  apply turn_capacity, C.
Qed.

Lemma run_seats (s : rng) (ds : list dref) (ps : list pref) (h : heap)
    (d : dref) :
  Driver.passengers (drv h d) = [] ->
  seats_taken (final_heap (match_algorithm' s ds ps h)) d
  = Z.of_nat
      (length (filter (fun r => Nat.eqb (Match.driver r) d)
                      (match_details (match_algorithm' s ds ps h))))
  /\ (0 <= Driver.capacity (drv h d) ->
      seats_taken (final_heap (match_algorithm' s ds ps h)) d
      <= Driver.capacity (drv h d)).
Proof.
  intros E0. unfold seats_taken.
  rewrite match_algorithm_unfold. cbn [final_heap match_details].
  set (h1 := record_rejections haversine ds ps h).
  set (order := fst (shuffle' s ds)).
  destruct (assign_all_ind haversine ps h1 (fun _ => True) I (fun _ _ _ => I)
              order) as [_ E].
  set (md := snd (assign_all haversine order ps h1)) in *.
  destruct (refresh_matched_only ps (replay h1 md)) as [D2 _].
  destruct (record_rejections_only haversine ds ps h) as [D1 _]. fold h1 in D1.
  rewrite D2. destruct (drv_replay md h1 d) as [Ep Ec].
  rewrite Ep, D1, E0, app_nil_l, length_map. split; [ reflexivity | ].
  intros C.
  pose proof (loop_capacity_nonneg ps d order (h1, []) ) as N.
  cbn [fst] in N. rewrite D1 in N. specialize (N C).
  fold (assign_all haversine order ps h1) in N. rewrite E in N.
  rewrite Ec, D1 in N. lia.
Qed.

Lemma run_seat_sum (s : rng) (ds : list dref) (ps : list pref) (h : heap) :
  NoDup ds ->
  (forall d, In d ds -> Driver.passengers (drv h d) = []) ->
  sumZ (seats_taken (final_heap (match_algorithm' s ds ps h)))
       (drivers_after (match_algorithm' s ds ps h))
  = Z.of_nat (length (match_details (match_algorithm' s ds ps h))).
Proof.
  intros ND E0.
  assert (Pm : Permutation ds (drivers_after (match_algorithm' s ds ps h))).
  { rewrite match_algorithm_unfold. cbn [drivers_after]. apply shuffle_perm. }
  rewrite <- (sumZ_perm _ _ _ Pm).
  rewrite (sumZ_ext _
             (fun d =>
                Z.of_nat
                  (length (filter (fun r => Nat.eqb (Match.driver r) d)
                             (match_details (match_algorithm' s ds ps h)))))).
  - apply count_by_driver; [ exact ND | ].
    rewrite match_algorithm_unfold. cbn [match_details].
    eapply Forall_impl; [ | apply records_in_pool ].
    intros r [Hd _].
    eapply Permutation_in; [ apply Permutation_sym, shuffle_perm | exact Hd ].
  - intros d Hd. apply run_seats, E0, Hd.
Qed.

Lemma run_matched_count (s : rng) (ds : list dref) (ps : list pref)
    (h : heap) :
  NoDup ps ->
  (forall p, In p ps -> Passenger.matched_driver (psg h p) = None) ->
  Permutation
    (filter (is_matched (final_heap (match_algorithm' s ds ps h))) ps)
    (map Match.passenger (match_details (match_algorithm' s ds ps h))).
Proof.
  intros ND M0. rewrite match_algorithm_unfold. cbn [final_heap match_details].
  set (h1 := record_rejections haversine ds ps h).
  set (order := fst (shuffle' s ds)).
  pose proof (assign_all_fresh haversine ps h1 order ND) as F.
  pose proof (records_in_pool haversine ps h1 order) as Pool.
  set (md := snd (assign_all haversine order ps h1)) in *.
  pose proof (record_rejections_only haversine ds ps h) as O1. fold h1 in O1.
  pose proof (refresh_matched_only ps (replay h1 md)) as O2.
  apply NoDup_Permutation.
  - apply NoDup_filter, ND.
  - apply (fresh_log_NoDup h1), F.
  - intros x. rewrite filter_In. unfold is_matched.
    rewrite (only_reasons_matched _ _ _ O2). split.
    + intros [Hx Mx].
      destruct (in_dec Nat.eq_dec x (map Match.passenger md))
        as [ Hin | Out ]; [ exact Hin | ].
      rewrite psg_replay_other in Mx by exact Out.
      rewrite (only_reasons_matched _ _ _ O1), (M0 x Hx) in Mx.
      discriminate Mx.
    + intros Hin. split.
      * apply in_map_iff in Hin. destruct Hin as [r [<- Hr]].
        rewrite Forall_forall in Pool. apply (Pool r Hr).
      * pose proof (matched_replay_in md h1 x Hin) as Mx.
        destruct (Passenger.matched_driver (psg (replay h1 md) x));
          [ reflexivity | contradiction ].
Qed.

(** X7. Seat accounting: after a run on a pool that lists every driver
    and every passenger once, with empty cars and unmatched passengers on
    entry, the seats taken over all listed drivers, the matched pool
    passengers and the returned records are equally many; so the
    occupancy numerator of [export_visualization_data]
    ([sum(len(d.passengers))]) and the [used_capacity] of
    [print_matching_results] ([len(matched_passengers)]) are the same
    number. *)
Theorem seat_accounting (s : rng) (ds : list dref) (ps : list pref)
    (h : heap) :
  NoDup ds -> NoDup ps ->
  (forall d, In d ds -> Driver.passengers (drv h d) = []) ->
  (forall p, In p ps -> Passenger.matched_driver (psg h p) = None) ->
  (fold_right
     (fun d acc =>
        inject_Z (seats_taken (final_heap (match_algorithm' s ds ps h)) d) + acc)
     0 (drivers_after (match_algorithm' s ds ps h))
   == len (match_details (match_algorithm' s ds ps h)))%Q
  /\ len (filter (is_matched (final_heap (match_algorithm' s ds ps h))) ps)
     = len (match_details (match_algorithm' s ds ps h)).
Proof.
  intros NDd NDp E0 M0. split.
  - rewrite Qsum_inject, (run_seat_sum s ds ps h NDd E0). reflexivity.
  - unfold len.
    rewrite (Permutation_length (run_matched_count s ds ps h NDp M0)).
    rewrite length_map. reflexivity.
Qed.

Lemma run_fare (s : rng) (ds : list dref) (ps : list pref) (h : heap)
    (p : pref) :
  Passenger.matched_driver (psg h p) = None ->
  Passenger.matched_driver
    (psg (final_heap (match_algorithm' s ds ps h)) p) <> None ->
  Passenger.fare (psg (final_heap (match_algorithm' s ds ps h)) p) = ride_cost.
Proof.
  intros M0. rewrite match_algorithm_unfold. cbn [final_heap].
  set (h1 := record_rejections haversine ds ps h).
  set (md := snd (assign_all haversine _ ps h1)).
  pose proof (refresh_matched_only ps (replay h1 md)) as O.
  rewrite (only_reasons_matched _ _ _ O), (only_reasons_fare _ _ _ O).
  apply (replay_ind
           (fun hk =>
              Passenger.matched_driver (psg hk p) <> None ->
              Passenger.fare (psg hk p) = ride_cost)).
  - pose proof (record_rejections_only haversine ds ps h) as O1. fold h1 in O1.
    rewrite (only_reasons_matched _ _ _ O1), M0. intros N. contradiction.
  - intros hk r Ik. rewrite matched_apply_match, fare_apply_match.
    destruct (Nat.eqb p (Match.passenger r)); [ reflexivity | exact Ik ].
Qed.

Lemma sumZ_le {A : Type} (f : A -> Z) (c : Z) (l : list A) :
  (forall x, In x l -> f x <= c) -> sumZ f l <= c * Z.of_nat (length l).
Proof.
  unfold sumZ. induction l as [ | x l IH ]; intros H; cbn [fold_right length].
  - lia.
  - specialize (H x (or_introl eq_refl)) as Hx.
    specialize (IH (fun y Hy => H y (or_intror Hy))). lia.
Qed.

(** X8. The exported statistics of a run: for a non-empty pool of fresh
    drivers and unmatched passengers, each listed once,
    [export_visualization_data] does not raise; it reports as many matched
    passengers as records were returned, the fleet occupancy
    [len(match_details) / (len(drivers) * MAX_CAPACITY) * 100], never
    above 100, and the total revenue [ride_cost * len(match_details)]. *)
Theorem export_after_run (s : rng) (ds : list dref) (ps : list pref)
    (h : heap) :
  ds <> [] -> NoDup ds -> NoDup ps ->
  (forall d, In d ds ->
     Driver.passengers (drv h d) = []
     /\ Driver.capacity (drv h d) = MAX_CAPACITY) ->
  (forall p, In p ps -> Passenger.matched_driver (psg h p) = None) ->
  exists st,
    export_statistics (drivers_after (match_algorithm' s ds ps h)) ps
      (final_heap (match_algorithm' s ds ps h)) = Ok st
    /\ total_drivers st = len ds
    /\ matched_passengers st = len (match_details (match_algorithm' s ds ps h))
    /\ (fleet_occupancy st
        == len (match_details (match_algorithm' s ds ps h))
           / (len ds * inject_Z MAX_CAPACITY) * 100)%Q
    /\ (fleet_occupancy st <= 100)%Q
    /\ (total_revenue st
        == ride_cost * len (match_details (match_algorithm' s ds ps h)))%Q.
Proof.
  intros NE NDd NDp Fresh M0.
  set (out := match_algorithm' s ds ps h).
  assert (Pm : Permutation ds (drivers_after out)).
  { subst out. rewrite match_algorithm_unfold. cbn [drivers_after].
    apply shuffle_perm. }
  assert (Ld : len (drivers_after out) = len ds).
  { unfold len. rewrite (Permutation_length Pm). reflexivity. }
  assert (E0 : forall d, In d ds -> Driver.passengers (drv h d) = [])
    by (intros d Hd; apply (Fresh d Hd)).
  pose proof (run_seat_sum s ds ps h NDd E0) as Seats. fold out in Seats.
  pose proof (run_matched_count s ds ps h NDp M0) as Pc. fold out in Pc.
  assert (Lm : len (filter (is_matched (final_heap out)) ps)
               = len (match_details out)).
  { unfold len. rewrite (Permutation_length Pc), length_map. reflexivity. }
  assert (NZ : Qeq_bool (len (drivers_after out) * inject_Z MAX_CAPACITY) 0
               = false).
  { destruct (drivers_after out) as [ | d0 l ] eqn:El.
    - apply Permutation_sym, Permutation_nil in Pm. contradiction.
    - apply fleet_size_nonzero. }
  unfold export_statistics, truediv. rewrite NZ. cbn [bind].
  eexists. split; [ reflexivity | ].
  cbn [total_drivers matched_passengers fleet_occupancy total_revenue].
  split; [ exact Ld | ]. split; [ exact Lm | ].
  assert (Occ : (fold_right
                   (fun d acc => inject_Z (seats_taken (final_heap out) d) + acc)
                   0 (drivers_after out)
                 == len (match_details out))%Q).
  { rewrite Qsum_inject, Seats. reflexivity. }
  split; [ rewrite Occ, Ld; reflexivity | ].
  split.
  - rewrite Occ, Ld.
    assert (Pos : (0 < len ds * inject_Z MAX_CAPACITY)%Q).
    { destruct ds as [ | d0 l ]; [ contradiction | ].
      unfold len, Qlt. cbn. lia. }
    assert (Le : (len (match_details out) <= 1 * (len ds * inject_Z MAX_CAPACITY))%Q).
    { rewrite Qmult_1_l. unfold len. rewrite <- inject_Z_mult, <- Zle_Qle.
      rewrite <- Seats, (Permutation_length Pm), Z.mul_comm.
      apply sumZ_le. intros d Hd.
      assert (Hd' : In d ds)
        by (eapply Permutation_in; [ apply Permutation_sym, Pm | exact Hd ]).
      destruct (Fresh d Hd') as [Ep Ec].
      destruct (run_seats s ds ps h d Ep) as [_ B]. fold out in B.
      rewrite Ec in B. apply B. discriminate. }
    apply (Qle_shift_div_r _ _ _ Pos) in Le.
    apply (Qmult_le_compat_r _ _ 100) in Le; [ | discriminate ].
    exact Le.
  - rewrite <- Lm. apply Qsum_constant. intros x Hx.
    apply filter_In in Hx. destruct Hx as [Hx Mx].
    apply run_fare; [ apply M0, Hx | ].
    unfold is_matched in Mx. fold out.
    destruct (Passenger.matched_driver (psg (final_heap out) x));
      [ discriminate | discriminate Mx ].
Qed.

End Further.

(** ** The printed report *)

Lemma len_cons_nonzero {A : Type} (x : A) (l : list A) :
  Qeq_bool (len (x :: l)) 0 = false.
Proof.
  destruct (Qeq_bool _ 0) eqn:E; [ | reflexivity ].
  apply Qeq_bool_iff in E. unfold len, Qeq in E. cbn in E. discriminate E.
Qed.

Lemma percent_cons {A : Type} (a : Q) (x : A) (l : list A) :
  percent a (len (x :: l)) = Ok (a / len (x :: l) * 100)%Q.
Proof. unfold percent, truediv. rewrite len_cons_nonzero. reflexivity. Qed.

Lemma fleet_capacity_positive {A : Type} (x : A) (l : list A) :
  Qgtb (len (x :: l) * inject_Z MAX_CAPACITY) 0 = true.
Proof.
  unfold Qgtb. destruct (Qcompare_spec (len (x :: l) * inject_Z MAX_CAPACITY) 0)
    as [ E | L | G ]; [ | | reflexivity ]; exfalso.
  - unfold len, Qeq in E. cbn in E. discriminate E.
  - unfold len, Qlt in L. cbn in L. lia.
Qed.

Lemma percent_fleet {A : Type} (a : Q) (x : A) (l : list A) :
  percent a (len (x :: l) * inject_Z MAX_CAPACITY)
  = Ok (a / (len (x :: l) * inject_Z MAX_CAPACITY) * 100)%Q.
Proof. unfold percent, truediv. rewrite fleet_size_nonzero. reflexivity. Qed.

(** What [print_matching_results] prints for a pool with a driver and a
    passenger. *)
Lemma print_matching_results_cons (d : dref) (ds : list dref) (p : pref)
    (ps : list pref) (h : heap) :
  let drivers := d :: ds in
  let passengers := p :: ps in
  let m := len (filter (is_matched h) passengers) in
  let u := len (filter (fun p => negb (is_matched h p)) passengers) in
  let c k := count_if (fun d => seats_taken h d =? k) drivers in
  let ac := count_if (fun d => seats_taken h d >? 0) drivers in
  let pct a := (a / len drivers * 100)%Q in
  print_matching_results drivers passengers h
  = Ok [ (m, (m / len passengers * 100)%Q);
         (u, (u / len passengers * 100)%Q);
         (c MAX_CAPACITY, pct (c MAX_CAPACITY)); (c 3, pct (c 3));
         (c 2, pct (c 2)); (c 1, pct (c 1)); (c 0, pct (c 0));
         (ac, pct ac);
         (m, (m / (len drivers * inject_Z MAX_CAPACITY) * 100)%Q) ].
Proof.
  cbv zeta. unfold print_matching_results.
  rewrite !percent_cons. cbn [bind].
  rewrite fleet_capacity_positive, percent_fleet. reflexivity.
Qed.

Lemma print_raises_empty (ds : list dref) (ps : list pref) (h : heap) :
  ds = [] \/ ps = [] ->
  print_matching_results ds ps h = Raise ZeroDivisionError.
Proof.
  intros [ -> | -> ]; [ | reflexivity ].
  unfold print_matching_results.
  apply bind_raise. intros m. apply bind_raise. intros u.
  rewrite percent_empty. reflexivity.
Qed.

(** X9. [print_matching_results] raises [ZeroDivisionError] exactly when
    the drivers list or the passengers list is empty; the guard
    [if total_capacity > 0] on its last division never decides anything,
    since with no driver an earlier division has already raised. *)
Theorem print_raises_iff_empty (ds : list dref) (ps : list pref) (h : heap) :
  print_matching_results ds ps h = Raise ZeroDivisionError
  <-> ds = [] \/ ps = [].
Proof.
  split.
  - intros R. destruct ds as [ | d ds ]; [ left; reflexivity | ].
    destruct ps as [ | p ps ]; [ right; reflexivity | ].
    rewrite print_matching_results_cons in R. discriminate R.
  - apply print_raises_empty.
Qed.





(** ** The earlier versions *)

Lemma assign_heap_only (d : dref) (a b : heap) (c : candidate) :
  only_reasons_changed a b ->
  only_reasons_changed (assign_heap d a c) (assign_heap d b c).
Proof.
  intros [D P]. split; intros x.
  - rewrite !drv_assign_heap, !D. reflexivity.
  - rewrite !psg_assign_heap.
    destruct (Nat.eqb x (fst (fst c))); [ | apply P ].
    rewrite (P (fst (fst c))). reflexivity.
Qed.

Lemma fold_assign_only (d : dref) (sel : list candidate) (a b : heap) :
  only_reasons_changed a b ->
  only_reasons_changed (fold_left (assign_heap d) sel a)
                       (fold_left (assign_heap d) sel b).
Proof.
  revert a b. induction sel as [ | c sel IH ]; intros a b O; cbn [fold_left];
    [ exact O | ].
  apply IH, assign_heap_only, O.
Qed.

Section VersionFacts.
Variable haversine : coord -> coord -> Q.
Variable rng : Type.
Variable randbelow : nat -> rng -> nat * rng.

Lemma turn_selection_only (a b : heap) (d : dref) (ps : list pref) :
  only_reasons_changed a b ->
  turn_selection haversine b d ps = turn_selection haversine a d ps.
Proof.
  intros O. unfold turn_selection, select_candidates.
  rewrite (build_candidates_only haversine a b d ps O).
  destruct O as [D _]. rewrite D. reflexivity.
Qed.

Lemma loop_only (ps : list pref) (order : list dref)
    (sa sb : heap * list Match.t) :
  only_reasons_changed (fst sa) (fst sb) -> snd sb = snd sa ->
  only_reasons_changed
    (fst (fold_left (process_driver haversine ps) order sa))
    (fst (fold_left (process_driver haversine ps) order sb))
  /\ snd (fold_left (process_driver haversine ps) order sb)
     = snd (fold_left (process_driver haversine ps) order sa).
Proof.
  revert sa sb. induction order as [ | d order IH ]; intros sa sb O E;
    cbn [fold_left]; [ split; assumption | ].
  apply IH; rewrite !process_driver_log; cbn [fst snd];
    rewrite (turn_selection_only (fst sa) (fst sb) d ps O).
  - apply fold_assign_only, O.
  - rewrite E. reflexivity.
Qed.

(** X11. The rejection analysis does not change the matching: on the same
    population and generator state the current [match_algorithm] and
    ver2's, which has no analysis passes, return the same records in the
    same order, leave the same drivers list and generator state, and
    leave stores that differ in the passengers' [rejection_reasons]
    only. *)
Theorem analysis_does_not_change_matching (s : rng) (ds : list dref)
    (ps : list pref) (h : heap) :
  match_details (match_algorithm haversine rng randbelow s ds ps h)
  = match_details (match_algorithm_v2 haversine rng randbelow s ds ps h)
  /\ drivers_after (match_algorithm haversine rng randbelow s ds ps h)
     = drivers_after (match_algorithm_v2 haversine rng randbelow s ds ps h)
  /\ rng_after (match_algorithm haversine rng randbelow s ds ps h)
     = rng_after (match_algorithm_v2 haversine rng randbelow s ds ps h)
  /\ only_reasons_changed
       (final_heap (match_algorithm_v2 haversine rng randbelow s ds ps h))
       (final_heap (match_algorithm haversine rng randbelow s ds ps h)).
Proof.
  unfold match_algorithm, match_algorithm_v2.
  destruct (shuffle rng randbelow s ds) as [order s'].
  pose proof (loop_only ps order (h, [])
                (record_rejections haversine ds ps h, [])) as L.
  cbn [fst snd] in L.
  destruct (L (record_rejections_only haversine ds ps h) eq_refl) as [O E].
  fold (assign_all haversine order ps h) in O, E.
  fold (assign_all haversine order ps (record_rejections haversine ds ps h))
    in O, E.
  destruct (assign_all haversine order ps h) as [ha mda].
  destruct (assign_all haversine order ps (record_rejections haversine ds ps h))
    as [hb mdb].
  cbn [fst snd match_details drivers_after rng_after final_heap] in *.
  repeat split; try assumption.
  - apply (only_reasons_changed_trans ha hb); [ exact O | ].
    apply refresh_matched_only.
  - apply (only_reasons_changed_trans ha hb); [ exact O | ].
    apply refresh_matched_only.
Qed.

Lemma loop_capacity_invariant (ps : list pref) (order : list dref) (h : heap)
    (d : dref) :
  capacity_invariant (drv h d) ->
  capacity_invariant (drv (fst (assign_all haversine order ps h)) d).
Proof.
  intros [Eq Pos]. split.
  - destruct (assign_all_ind haversine ps h (fun _ => True) I (fun _ _ _ => I)
                order) as [_ E].
    rewrite E.
    destruct (drv_replay (snd (assign_all haversine order ps h)) h d)
      as [Ep Ec].
    rewrite Ep, Ec, length_app, length_map. lia.
  - apply (loop_capacity_nonneg haversine ps d order (h, [])), Pos.
Qed.

Lemma diagnose_snoc (h : heap) (l : list dref) (d : dref) (p : pref) :
  diagnose haversine h (l ++ [d]) p
  = diagnose_step haversine h p (diagnose haversine h l p) d.
Proof. unfold diagnose. rewrite fold_left_app. reflexivity. Qed.


Lemma diagnose_explains (h : heap) (ds : list dref) (p : pref) :
  rejection_reason (diagnose haversine h ds p) = Unknown
  \/ exists d, In d ds
       /\ rejection_reason (diagnose haversine h ds p)
          = explain haversine h p d.
Proof.
  induction ds as [ | x l IH ] using rev_ind; [ left; reflexivity | ].
  rewrite diagnose_snoc. unfold diagnose_step.
  destruct (match closest_dist _ with None => true | Some c => _ end).
  - right. exists x. split; [ apply in_or_app; right; left | ]; reflexivity.
  - destruct IH as [ U | (d & Hd & E) ]; [ left; exact U | ].
    right. exists d. split; [ apply in_or_app; left; exact Hd | exact E ].
Qed.

Lemma explain_within (h : heap) (p : pref) (d : dref) :
  explain haversine h p d = NoCompatibleDriverFound ->
  within_thresholds haversine (drv h d) (psg h p) = true
  /\ Z.of_nat (length (Driver.passengers (drv h d))) < MAX_CAPACITY.
Proof.
  unfold explain, within_thresholds. rewrite !Qle_bool_Qgtb, leb_gtb.
  destruct (Qgtb _ SEARCH_RADIUS_KM); [ discriminate | ].
  destruct (Qgtb _ SEARCH_RADIUS_KM); [ discriminate | ].
  destruct (_ >? 1); [ discriminate | ].
  destruct (_ >=? MAX_CAPACITY) eqn:G; [ discriminate | ].
  intros _. split; [ reflexivity | ].
  rewrite Z.geb_leb in G. apply Z.leb_gt in G. exact G.
Qed.

(** X13. "No compatible driver found" is never the reason: after ver2's
    [match_algorithm] on drivers that enter with
    [capacity + len(passengers) == MAX_CAPACITY] and a non-negative
    capacity, the report's diagnosis of a pool passenger left unmatched
    never ends in the final [else] of its chain; a nearest driver within
    all three thresholds is always reported as at full capacity. *)
Theorem diagnosis_never_no_compatible (s : rng) (ds : list dref)
    (ps : list pref) (h : heap) (p : pref) :
  (forall d, In d ds -> capacity_invariant (drv h d)) ->
  In p ps ->
  Passenger.matched_driver
    (psg (final_heap (match_algorithm_v2 haversine rng randbelow s ds ps h)) p)
  = None ->
  rejection_reason
    (diagnose haversine
       (final_heap (match_algorithm_v2 haversine rng randbelow s ds ps h))
       (drivers_after (match_algorithm_v2 haversine rng randbelow s ds ps h))
       p)
  <> NoCompatibleDriverFound.
Proof.
  intros Inv Hp. unfold match_algorithm_v2.
  pose proof (shuffle_perm rng randbelow s ds) as Pm.
  destruct (shuffle rng randbelow s ds) as [order s']. cbn [fst] in Pm.
  rewrite (surjective_pairing (assign_all haversine order ps h)).
  cbn [final_heap drivers_after].
  set (hf := fst (assign_all haversine order ps h)).
  assert (St : same_static h hf).
  { subst hf.
    destruct (assign_all_ind haversine ps h (fun _ => True) I (fun _ _ _ => I)
                order) as [_ E].
    rewrite E. apply replay_static. }
  intros M R.
  destruct (diagnose_explains hf order p) as [ U | (d & Hd & E) ];
    [ rewrite U in R; discriminate R | ].
  rewrite E in R. apply explain_within in R. destruct R as [W Free].
  assert (Hds : In d ds)
    by (eapply Permutation_in; [ apply Permutation_sym, Pm | exact Hd ]).
  destruct (loop_capacity_invariant ps order h d (Inv d Hds)) as [Eq Pos].
  fold hf in Eq, Pos.
  rewrite (within_thresholds_static haversine h hf d p St) in W.
  destruct (loop_maximal haversine ps d p h Hp W order (h, []))
    as [ M' | Z0 ].
  - apply same_static_refl.
  - apply (Inv d Hds).
  - left. exact Hd.
  - apply M'. exact M.
  - change (Driver.capacity (drv hf d) = 0) in Z0. lia.
Qed.

Lemma psg_assign_heap_v1 (d : dref) (h : heap) (c : candidate) (x : pref) :
  psg (assign_heap_v1 d h c) x =
  if Nat.eqb x (fst (fst c)) then set_matched_driver (psg h (fst (fst c))) d
  else psg h x.
Proof. reflexivity. Qed.

Lemma drv_assign_heap_v1 (d : dref) (h : heap) (c : candidate) (x : dref) :
  drv (assign_heap_v1 d h c) x =
  if Nat.eqb x d
  then Driver.decr_capacity (Driver.append_passenger (drv h d) (fst (fst c)))
  else drv h x.
Proof.
  unfold assign_heap_v1. cbn. rewrite Nat.eqb_refl.
  destruct (Nat.eqb x d); reflexivity.
Qed.

Lemma assign_heap_v1_static (d : dref) (h : heap) (c : candidate) :
  same_static h (assign_heap_v1 d h c).
Proof.
  split; intros x.
  - rewrite drv_assign_heap_v1. destruct (Nat.eqb x d) eqn:E; [ | reflexivity ].
    apply Nat.eqb_eq in E. subst x. reflexivity.
  - rewrite psg_assign_heap_v1.
    destruct (Nat.eqb x (fst (fst c))) eqn:E; [ | reflexivity ].
    apply Nat.eqb_eq in E. subst x. reflexivity.
Qed.

Lemma candidate_facts_v1 (h : heap) (d : dref) (ps : list pref)
    (c : candidate) :
  In c (build_candidates_v1 haversine h d ps) ->
  In (fst (fst c)) ps
  /\ Driver.schedule (drv h d) = Passenger.schedule (psg h (fst (fst c)))
  /\ (haversine (Driver.origin (drv h d))
                (Passenger.origin (psg h (fst (fst c))))
      <= SEARCH_RADIUS_KM)%Q
  /\ (haversine (Driver.dest (drv h d))
                (Passenger.dest (psg h (fst (fst c))))
      <= SEARCH_RADIUS_KM)%Q.
Proof.
  induction ps as [ | p ps IH ]; [ intros [] | ].
  cbn [build_candidates_v1].
  assert (T : In c (build_candidates_v1 haversine h d ps) ->
              In (fst (fst c)) (p :: ps) /\ _)
    by (intros H; destruct (IH H) as (A & B); split;
        [ right; exact A | exact B ]).
  destruct (Passenger.matched_driver (psg h p)); [ exact T | ].
  destruct (Qgtb (haversine (Driver.origin (drv h d))
                    (Passenger.origin (psg h p))) SEARCH_RADIUS_KM) eqn:Go;
    [ exact T | ].
  destruct (Qgtb (haversine (Driver.dest (drv h d))
                    (Passenger.dest (psg h p))) SEARCH_RADIUS_KM) eqn:Gd;
    [ exact T | ].
  destruct (Z.eqb_spec (Driver.schedule (drv h d))
              (Passenger.schedule (psg h p))) as [ Es | Ns ];
    cbn [negb]; [ | exact T ].
  intros [ <- | H ]; [ | exact (T H) ].
  cbn [fst]. split; [ left; reflexivity | ].
  split; [ exact Es | ].
  split; apply Qgtb_false_le; assumption.
Qed.

(** X14. ver1 only pairs equal schedules: a passenger that enters ver1's
    [match_algorithm] unmatched and leaves it matched is a pool passenger
    matched to a listed driver whose schedule equals its own (ver1 has no
    one-hour window) and whose origin and destination are within the
    search radius of its own. *)
Theorem v1_pairs_equal_schedules (s : rng) (ds : list dref) (ps : list pref)
    (h : heap) (p : pref) (d : dref) :
  Passenger.matched_driver (psg h p) = None ->
  Passenger.matched_driver
    (psg (fst (fst (match_algorithm_v1 haversine rng randbelow s ds ps h))) p)
  = Some d ->
  good_pair_v1 haversine h ds ps d p.
Proof.
  intros M0. unfold match_algorithm_v1.
  pose proof (shuffle_perm rng randbelow s ds) as Pm.
  destruct (shuffle rng randbelow s ds) as [order s']. cbn [fst] in *.
  set (Inv := fun hk : heap =>
                same_static h hk
                /\ forall x dx,
                     Passenger.matched_driver (psg h x) = None ->
                     Passenger.matched_driver (psg hk x) = Some dx ->
                     good_pair_v1 haversine h ds ps dx x).
  assert (Turn : forall d' sel hk,
             In d' ds ->
             Forall (fun c =>
                       In (fst (fst c)) ps
                       /\ Driver.schedule (drv h d')
                          = Passenger.schedule (psg h (fst (fst c)))
                       /\ (haversine (Driver.origin (drv h d'))
                                     (Passenger.origin (psg h (fst (fst c))))
                           <= SEARCH_RADIUS_KM)%Q
                       /\ (haversine (Driver.dest (drv h d'))
                                     (Passenger.dest (psg h (fst (fst c))))
                           <= SEARCH_RADIUS_KM)%Q) sel ->
             Inv hk -> Inv (fold_left (assign_heap_v1 d') sel hk)).
  { intros d' sel. induction sel as [ | c sel IHs ]; intros hk Hd F I0;
      cbn [fold_left]; [ exact I0 | ].
    inversion F as [ | c' sel' Fc Fs ]; subst.
    apply IHs; [ exact Hd | exact Fs | ].
    destruct I0 as [S G]. split.
    - eapply same_static_trans; [ exact S | apply assign_heap_v1_static ].
    - intros x dx Mx. rewrite psg_assign_heap_v1.
      destruct (Nat.eqb x (fst (fst c))) eqn:E; [ | apply G, Mx ].
      apply Nat.eqb_eq in E. subst x. cbn. intros [= <-].
      destruct Fc as (A & B & C & D). repeat split; assumption. }
  assert (Loop : forall l hk,
             incl l ds -> Inv hk ->
             Inv (fold_left (process_driver_v1 haversine ps) l hk)).
  { induction l as [ | d' l IHl ]; intros hk Il I0; cbn [fold_left];
      [ exact I0 | ].
    apply IHl; [ intros x Hx; apply Il; right; exact Hx | ].
    unfold process_driver_v1.
    destruct (Driver.capacity (drv hk d') =? 0); [ exact I0 | ].
    apply Turn; [ apply Il; left; reflexivity | | exact I0 ].
    apply Forall_forall. intros c Hc. apply py_slice_to_incl in Hc.
    eapply Permutation_in in Hc; [ | apply Permutation_sym, sort_by_key_perm ].
    apply candidate_facts_v1 in Hc. destruct I0 as [S _].
    destruct (static_driver_fields h hk d' S) as (_ & Eo & Ed & Es).
    destruct (static_passenger_fields h hk (fst (fst c)) S) as (Po & Pd & Ps).
    rewrite Eo, Ed, Es, Po, Pd, Ps in Hc. exact Hc. }
  intros M.
  destruct (Loop order h) as [_ G].
  - intros x Hx. eapply Permutation_in; [ apply Permutation_sym, Pm | exact Hx ].
  - split; [ apply same_static_refl | ].
    intros x dx Mx Mx'. rewrite Mx in Mx'. discriminate Mx'.
  - apply (G p d M0 M).
Qed.

End VersionFacts.

(** ** Cross references in the final store *)

Section CrossReferences.
Variable haversine : coord -> coord -> Q.
Variable rng : Type.
Variable randbelow : nat -> rng -> nat * rng.

Lemma log_fares (ps : list pref) (h1 : heap) (order : list dref) :
  Forall (fun r => Match.fare r = ride_cost)
         (snd (assign_all haversine order ps h1)).
Proof.
  destruct (assign_all_ind haversine ps h1
              (Forall (fun r => Match.fare r = ride_cost)))
    with (order := order) as [A _]; [ constructor | | exact A ].
  intros md d Hmd. apply Forall_app. split; [ exact Hmd | ].
  apply Forall_forall. intros r Hr. apply in_map_iff in Hr.
  destruct Hr as [[[q o] e] [<- _]]. reflexivity.
Qed.

(** X15. Back references are consistent: after a run on a pool that lists
    every passenger once, for a driver that entered with an empty car and
    a passenger that entered unmatched, the passenger is in the driver's
    [passengers] list exactly when the passenger's [matched_driver] is
    that driver. *)
Theorem back_references_consistent (s : rng) (ds : list dref)
    (ps : list pref) (h : heap) (d : dref) (p : pref) :
  NoDup ps ->
  Driver.passengers (drv h d) = [] ->
  Passenger.matched_driver (psg h p) = None ->
  In p (Driver.passengers
          (drv (final_heap (match_algorithm haversine rng randbelow s ds ps h))
               d))
  <-> Passenger.matched_driver
        (psg (final_heap (match_algorithm haversine rng randbelow s ds ps h))
             p) = Some d.
Proof.
  intros ND E0 M0. rewrite match_algorithm_unfold. cbn [final_heap].
  set (h1 := record_rejections haversine ds ps h).
  set (order := fst (shuffle rng randbelow s ds)).
  pose proof (assign_all_fresh haversine ps h1 order ND) as F.
  pose proof (log_fares ps h1 order) as Fa.
  set (md := snd (assign_all haversine order ps h1)) in *.
  pose proof (record_rejections_only haversine ds ps h) as O1. fold h1 in O1.
  pose proof (refresh_matched_only ps (replay h1 md)) as O2.
  rewrite (only_reasons_matched _ _ _ O2).
  destruct O2 as [D2 _]. rewrite D2.
  destruct (drv_replay md h1 d) as [Ep _]. rewrite Ep.
  destruct O1 as [D1 P1]. rewrite D1, E0, app_nil_l.
  rewrite Forall_forall in Fa.
  split.
  - intros Hin. apply in_map_iff in Hin. destruct Hin as [r [<- Hr]].
    apply filter_In in Hr. destruct Hr as [Hr Ed].
    apply Nat.eqb_eq in Ed. subst d.
    apply (record_fields_replay md h1 r (fresh_log_NoDup h1 md F) Hr (Fa r Hr)).
  - intros M.
    destruct (in_dec Nat.eq_dec p (map Match.passenger md)) as [ Hin | Out ].
    + apply in_map_iff in Hin. destruct Hin as [r [Er Hr]].
      destruct (record_fields_replay md h1 r (fresh_log_NoDup h1 md F) Hr
                  (Fa r Hr)) as [Mr _].
      rewrite Er, M in Mr. injection Mr as ->.
      apply in_map_iff. exists r. split; [ exact Er | ].
      apply filter_In. split; [ exact Hr | apply Nat.eqb_refl ].
    + rewrite psg_replay_other in M by exact Out.
      rewrite (P1 p) in M. cbn in M. rewrite M0 in M. discriminate M.
Qed.

End CrossReferences.

(** ** The schedule distribution of ver2's pool report *)

Lemma dict_get_set (m : dict) (k v k' def : Z) :
  dict_get (dict_set m k v) k' def
  = if k =? k' then v else dict_get m k' def.
Proof.
  unfold dict_get. induction m as [ | [a b] m IH ]; cbn [dict_set find fst snd].
  - destruct (k =? k'); reflexivity.
  - destruct (Z.eqb_spec a k) as [ -> | N ]; cbn [find fst snd].
    + destruct (k =? k'); reflexivity.
    + destruct (Z.eqb_spec a k') as [ -> | N' ]; [ | exact IH ].
      destruct (Z.eqb_spec k k') as [ E | _ ]; [ | reflexivity ].
      exfalso. apply N. symmetry. exact E.
Qed.

Lemma dict_keys_set (m : dict) (k v k' : Z) :
  In k' (dict_keys (dict_set m k v)) <-> k' = k \/ In k' (dict_keys m).
Proof.
  unfold dict_keys. induction m as [ | [a b] m IH ]; cbn [dict_set map fst In].
  - intuition.
  - destruct (Z.eqb_spec a k) as [ -> | N ]; cbn [map fst In].
    + intuition.
    + rewrite IH. intuition.
Qed.

Lemma count_schedules_get (l : list Z) (m : dict) (k : Z) :
  dict_get (fold_left (fun m s => dict_set m s (dict_get m s 0 + 1)) l m) k 0
  = dict_get m k 0 + occurrences k l.
Proof.
  unfold occurrences. revert m.
  induction l as [ | x l IH ]; intros m; cbn [fold_left filter length].
  - lia.
  - rewrite IH, dict_get_set.
    destruct (Z.eqb_spec x k) as [ -> | N ]; cbn [length]; lia.
Qed.

Lemma count_schedules_keys (l : list Z) (m : dict) (k : Z) :
  In k (dict_keys
          (fold_left (fun m s => dict_set m s (dict_get m s 0 + 1)) l m))
  <-> In k (dict_keys m) \/ In k l.
Proof.
  revert m. induction l as [ | x l IH ]; intros m; cbn [fold_left In].
  - intuition.
  - rewrite IH, dict_keys_set. intuition.
Qed.

Lemma insert_unique_in (x y : Z) (l : list Z) :
  In y (insert_unique x l) <-> y = x \/ In y l.
Proof.
  induction l as [ | z l IH ]; cbn [insert_unique In]; [ intuition | ].
  destruct (x <? z); cbn [In]; [ intuition | ].
  destruct (Z.eqb_spec x z) as [ -> | N ]; cbn [In]; [ intuition | ].
  rewrite IH. intuition.
Qed.

Lemma insert_unique_sorted (x : Z) (l : list Z) :
  StronglySorted Z.lt l -> StronglySorted Z.lt (insert_unique x l).
Proof.
  induction l as [ | z l IH ]; intros S; cbn [insert_unique].
  - constructor; constructor.
  - inversion S as [ | z' l' Sl Fz ]; subst.
    destruct (Z.ltb_spec x z) as [ L | G ].
    + constructor; [ exact S | ].
      constructor; [ exact L | ].
      eapply Forall_impl; [ | exact Fz ]. intros a Ha. cbn in Ha. lia.
    + destruct (Z.eqb_spec x z) as [ -> | N ]; [ exact S | ].
      constructor; [ apply IH, Sl | ].
      apply Forall_forall. intros a Ha. apply insert_unique_in in Ha.
      destruct Ha as [ -> | Ha ]; [ lia | ].
      rewrite Forall_forall in Fz. apply Fz, Ha.
Qed.

Lemma sorted_set_in (l : list Z) (y : Z) : In y (sorted_set l) <-> In y l.
Proof.
  induction l as [ | x l IH ]; cbn [sorted_set fold_right In]; [ tauto | ].
  fold (sorted_set l). rewrite insert_unique_in, IH. intuition.
Qed.

Lemma sorted_set_sorted (l : list Z) : StronglySorted Z.lt (sorted_set l).
Proof.
  induction l as [ | x l IH ]; cbn [sorted_set fold_right]; [ constructor | ].
  apply insert_unique_sorted, IH.
Qed.

Lemma sorted_lt_NoDup (l : list Z) : StronglySorted Z.lt l -> NoDup l.
Proof.
  induction 1 as [ | x l S IH F ]; constructor; [ | exact IH ].
  intros Hin. rewrite Forall_forall in F. specialize (F x Hin). lia.
Qed.

Lemma occurrences_total (keys l : list Z) :
  NoDup keys -> (forall x, In x l -> In x keys) ->
  sumZ (fun k => occurrences k l) keys = Z.of_nat (length l).
Proof.
  intros ND. unfold occurrences.
  induction l as [ | x l IH ]; intros Hin.
  - cbn [filter length]. unfold sumZ. clear.
    induction keys as [ | k keys IHk ]; cbn [fold_right]; lia.
  - specialize (IH (fun y Hy => Hin y (or_intror Hy))).
    rewrite (sumZ_ext _ (fun k => (if x =? k then 1 else 0)
                                  + Z.of_nat (length (filter (fun y => y =? k) l)))).
    + rewrite sumZ_plus, IH. cbn [length].
      assert (One : sumZ (fun k => if x =? k then 1 else 0) keys = 1).
      { specialize (Hin x (or_introl eq_refl)). clear IH.
        induction ND as [ | k keys Nk Nks IHk ]; [ destruct Hin | ].
        unfold sumZ in *. cbn [fold_right].
        destruct (Z.eqb_spec x k) as [ -> | N ].
        - replace (fold_right _ 0 keys) with 0; [ reflexivity | ].
          symmetry. clear IHk Nks Hin.
          induction keys as [ | z keys IHz ]; [ reflexivity | ].
          cbn [fold_right].
          rewrite IHz by (intros H; apply Nk; right; exact H).
          destruct (Z.eqb_spec k z) as [ E | _ ]; [ | reflexivity ].
          exfalso. apply Nk. left. symmetry. exact E.
        - destruct Hin as [ E | Hin ]; [ exfalso; apply N; symmetry; exact E | ].
          rewrite (IHk Hin). reflexivity. }
      rewrite One. lia.
    + intros k _. cbn [filter]. destruct (x =? k); cbn [length]; lia.
Qed.

(** X16. The schedule distribution counts everybody once: the rows ver2's
    [print_pool_details] prints carry strictly ascending hours; an hour
    has a row exactly when some listed driver or passenger has that
    schedule; each row's two counts are the numbers of listed drivers and
    passengers with that schedule; and the driver counts sum to
    [len(drivers)], the passenger counts to [len(passengers)]. *)
Theorem schedule_distribution_counts (h : heap) (drivers : list dref)
    (passengers : list pref) :
  let dsched := map (fun d => Driver.schedule (drv h d)) drivers in
  let psched := map (fun p => Passenger.schedule (psg h p)) passengers in
  let rows := schedule_distribution h drivers passengers in
  StronglySorted Z.lt (map (fun r => fst (fst r)) rows)
  /\ (forall hour,
        In hour (map (fun r => fst (fst r)) rows)
        <-> In hour dsched \/ In hour psched)
  /\ Forall (fun r =>
               snd (fst r) = occurrences (fst (fst r)) dsched
               /\ snd r = occurrences (fst (fst r)) psched) rows
  /\ sumZ (fun r => snd (fst r)) rows = Z.of_nat (length drivers)
  /\ sumZ snd rows = Z.of_nat (length passengers).
Proof.
  intros dsched psched rows.
  set (keys := sorted_set (dict_keys (count_schedules dsched)
                           ++ dict_keys (count_schedules psched))).
  assert (Hrows : map (fun r => fst (fst r)) rows = keys).
  { subst rows. unfold schedule_distribution. fold dsched psched keys.
    rewrite map_map. cbn [fst]. apply map_id. }
  assert (Hget : forall l k, dict_get (count_schedules l) k 0 = occurrences k l).
  { intros l k. unfold count_schedules. rewrite count_schedules_get.
    reflexivity. }
  assert (Hkeys : forall k, In k keys <-> In k dsched \/ In k psched).
  { intros k. subst keys. rewrite sorted_set_in, in_app_iff.
    unfold count_schedules. rewrite !count_schedules_keys.
    cbn [dict_keys map In]. tauto. }
  assert (Hsum : forall (f : Z * Z * Z -> Z) l,
             (forall k, f (k, dict_get (count_schedules dsched) k 0,
                           dict_get (count_schedules psched) k 0)
                        = occurrences k l) ->
             (forall x, In x l -> In x keys) ->
             sumZ f rows = Z.of_nat (length l)).
  { intros f l Hf Hl. subst rows. unfold schedule_distribution.
    fold dsched psched keys.
    rewrite <- (occurrences_total keys l);
      [ | apply sorted_lt_NoDup, sorted_set_sorted | exact Hl ].
    unfold sumZ. generalize keys as ks.
    induction ks as [ | k ks IHk ]; [ reflexivity | ].
    cbn [map fold_right]. rewrite IHk, Hf. reflexivity. }
  split; [ rewrite Hrows; apply sorted_set_sorted | ].
  split; [ intros hour; rewrite Hrows; apply Hkeys | ].
  split.
  - subst rows. unfold schedule_distribution. fold dsched psched keys.
    apply Forall_forall. intros r Hr. apply in_map_iff in Hr.
    destruct Hr as [k [<- _]]. cbn [fst snd]. rewrite !Hget. split; reflexivity.
  - split.
    + rewrite <- (length_map (fun d => Driver.schedule (drv h d)) drivers).
      apply Hsum; [ intros k; cbn [fst snd]; apply Hget | ].
      intros x Hx. apply Hkeys. left. exact Hx.
    + rewrite <- (length_map (fun p => Passenger.schedule (psg h p)) passengers).
      apply Hsum; [ intros k; cbn [fst snd]; apply Hget | ].
      intros x Hx. apply Hkeys. right. exact Hx.
Qed.

(** ** The distance and revenue statistics of ver2's report *)



Lemma fold_plus_acc (l : list Q) (acc : Q) :
  (fold_left Qplus l acc == acc + py_sum l)%Q.
Proof.
  unfold py_sum. revert acc. induction l as [ | x l IH ]; intros acc.
  - cbn. rewrite Qplus_0_r. reflexivity.
  - cbn [fold_left]. rewrite (IH (acc + x)%Q), (IH (0 + x)%Q).
    rewrite Qplus_0_l, Qplus_assoc. reflexivity.
Qed.

Lemma py_sum_cons (x : Q) (l : list Q) :
  (py_sum (x :: l) == x + py_sum l)%Q.
Proof.
  unfold py_sum at 1. cbn [fold_left]. rewrite fold_plus_acc, Qplus_0_l.
  reflexivity.
Qed.

Lemma len_cons {A : Type} (x : A) (l : list A) :
  (len (x :: l) == 1 + len l)%Q.
Proof.
  unfold len. cbn [length]. rewrite Nat2Z.inj_succ, <- Z.add_1_l.
  rewrite inject_Z_plus. reflexivity.
Qed.




Section ReportFacts.
Variable haversine : coord -> coord -> Q.
Variable rng : Type.
Variable randbelow : nat -> rng -> nat * rng.

Lemma v2_details (s : rng) (ds : list dref) (ps : list pref) (h : heap) :
  match_details (match_algorithm_v2 haversine rng randbelow s ds ps h)
  = snd (assign_all haversine (fst (shuffle rng randbelow s ds)) ps h)
  /\ drivers_after (match_algorithm_v2 haversine rng randbelow s ds ps h)
     = fst (shuffle rng randbelow s ds).
Proof.
  unfold match_algorithm_v2. destruct (shuffle rng randbelow s ds) as [o s'].
  cbn [fst]. destruct (assign_all haversine o ps h) as [h2 md].
  split; reflexivity.
Qed.


Lemma py_sum_constant (c : Q) (l : list Q) :
  (forall y, In y l -> y = c) -> (py_sum l == c * len l)%Q.
Proof.
  induction l as [ | x l IH ]; intros H.
  - unfold py_sum, len. cbn. rewrite Qmult_0_r. reflexivity.
  - rewrite py_sum_cons, len_cons, (H x (or_introl eq_refl)).
    rewrite IH by (intros y Hy; apply H; right; exact Hy).
    rewrite Qmult_plus_distr_r, Qmult_1_r. reflexivity.
Qed.

(** X18. The report's revenue: after ver2's [match_algorithm], when no
    record was returned the revenue statistics are skipped; otherwise the
    division by [len(drivers)] cannot raise (a record names a listed
    driver), the fare per passenger is [ride_cost], the total revenue is
    [ride_cost * len(match_details)] and the average per driver is the
    total over [len(drivers)]. *)
Theorem report_revenue (s : rng) (ds : list dref) (ps : list pref)
    (h : heap) :
  (match_details (match_algorithm_v2 haversine rng randbelow s ds ps h) = [] ->
   revenue_statistics
     (drivers_after (match_algorithm_v2 haversine rng randbelow s ds ps h))
     (match_details (match_algorithm_v2 haversine rng randbelow s ds ps h))
   = None)
  /\ (match_details (match_algorithm_v2 haversine rng randbelow s ds ps h)
      <> [] ->
      exists total avg,
        revenue_statistics
          (drivers_after (match_algorithm_v2 haversine rng randbelow s ds ps h))
          (match_details (match_algorithm_v2 haversine rng randbelow s ds ps h))
        = Some (Ok (ride_cost, total, avg))
        /\ (total
            == ride_cost
               * len (match_details
                        (match_algorithm_v2 haversine rng randbelow s ds ps h)))%Q
        /\ (avg == total / len ds)%Q).
Proof.
  destruct (v2_details s ds ps h) as [-> ->].
  pose proof (shuffle_perm rng randbelow s ds) as Pm.
  set (order := fst (shuffle rng randbelow s ds)) in *.
  pose proof (log_fares haversine ps h order) as Fa.
  pose proof (records_in_pool haversine ps h order) as Pool.
  destruct (snd (assign_all haversine order ps h)) as [ | m rest ].
  - split; [ reflexivity | intros N; contradiction ].
  - split; [ intros E; discriminate E | ]. intros _.
    rewrite Forall_forall in Fa, Pool.
    destruct (Pool m (or_introl eq_refl)) as [Hd _].
    assert (Ld : len order = len ds)
      by (unfold len; rewrite (Permutation_length Pm); reflexivity).
    unfold revenue_statistics, truediv.
    destruct order as [ | d0 order' ]; [ destruct Hd | ].
    rewrite len_cons_nonzero. cbn [bind].
    rewrite (Fa m (or_introl eq_refl)).
    do 2 eexists. split; [ reflexivity | ]. split.
    + rewrite py_sum_constant with (c := ride_cost).
      * unfold len. rewrite length_map. reflexivity.
      * intros y Hy. apply in_map_iff in Hy. destruct Hy as [r [<- Hr]].
        apply Fa, Hr.
    + rewrite Ld. reflexivity.
Qed.

End ReportFacts.

(** ** The further properties at work *)

Lemma town_drivers_fresh (d : dref) :
  In d town_drivers ->
  Driver.passengers (drv town_heap d) = []
  /\ Driver.capacity (drv town_heap d) = MAX_CAPACITY.
Proof.
  intros [ <- | [ <- | [] ] ]; split; reflexivity.
Defined.

Lemma town_passengers_unmatched (p : pref) :
  In p town_passengers ->
  Passenger.matched_driver (psg town_heap p) = None.
Proof.
  intros [ <- | [ <- | [ <- | [ <- | [ <- | [ <- | [] ] ] ] ] ] ]; reflexivity.
Defined.

Lemma town_drivers_invariant (d : dref) :
  In d town_drivers -> capacity_invariant (drv town_heap d).
Proof.
  intros [ <- | [ <- | [] ] ]; split; (reflexivity || discriminate).
Defined.

Lemma town_drivers_NoDup : NoDup town_drivers.
Proof. unfold town_drivers. nodup_pool. Defined.

Lemma town_passengers_NoDup : NoDup town_passengers.
Proof. unfold town_passengers. nodup_pool. Defined.

Lemma greedy_maximality_witness :
  In 0%nat scenario_drivers /\ In 0%nat scenario_passengers
  /\ 0 <= Driver.capacity (drv scenario_heap 0%nat)
  /\ within_thresholds grid_km (drv scenario_heap 0%nat)
       (psg scenario_heap 0%nat) = true
  /\ Passenger.matched_driver
       (psg (final_heap
               (run [] scenario_drivers scenario_passengers scenario_heap))
            0%nat) = None
  /\ Driver.capacity
       (drv (final_heap
               (run [] scenario_drivers scenario_passengers scenario_heap))
            0%nat) = 0.
Proof.
  assert (Hd : In 0%nat scenario_drivers) by (left; reflexivity).
  assert (Hp : In 0%nat scenario_passengers)
    by (right; right; left; reflexivity).
  assert (C : 0 <= Driver.capacity (drv scenario_heap 0%nat)) by discriminate.
  repeat (split; [ first [ exact Hd | exact Hp | exact C | reflexivity ] | ]).
  exact (greedy_maximality grid_km tape tape_randbelow [] scenario_drivers
           scenario_passengers scenario_heap 0%nat 0%nat Hd Hp C
           eq_refl eq_refl).
Defined.

Lemma records_agree_witness :
  NoDup town_passengers
  /\ In (Match.mk 0%nat 3%nat (5 # 10) 0 ride_cost)
        (match_details (match_algorithm grid_km tape tape_randbelow [0%nat]
               town_drivers town_passengers town_heap))
  /\ Passenger.pickup_distance
       (psg (final_heap (match_algorithm grid_km tape tape_randbelow [0%nat]
               town_drivers town_passengers town_heap))
            3%nat) = Some (5 # 10).
Proof.
  assert (Hr : In (Match.mk 0%nat 3%nat (5 # 10) 0 ride_cost)
                 (match_details
                    (match_algorithm grid_km tape tape_randbelow [0%nat]
               town_drivers town_passengers town_heap)))
    by (vm_compute; do 4 right; left; reflexivity).
  split; [ exact town_passengers_NoDup | ]. split; [ exact Hr | ].
  exact (proj1 (proj2
           (records_agree_with_passengers grid_km tape tape_randbelow
              [0%nat] town_drivers town_passengers town_heap _
              town_passengers_NoDup Hr))).
Defined.

Lemma matched_iff_recorded_witness :
  Passenger.matched_driver (psg town_heap 3%nat) = None
  /\ In 3%nat
       (map Match.passenger
          (match_details (run [0%nat] town_drivers town_passengers town_heap))).
Proof.
  split; [ reflexivity | ].
  apply (proj1 (matched_iff_recorded grid_km tape tape_randbelow
                  [0%nat] town_drivers town_passengers town_heap 3%nat
                  eq_refl)).
  vm_compute. discriminate.
Defined.

Lemma analysis_agrees_witness :
  In 5%nat town_passengers /\ nth_error town_drivers 1 = Some 1%nat
  /\ exists e,
       nth_error
         (Passenger.rejection_reasons
            (psg (final_heap
                    (run [0%nat] town_drivers town_passengers town_heap))
                 5%nat)) 1 = Some e
       /\ Reason.is_compatible e = false.
Proof.
  assert (Hp : In 5%nat town_passengers) by (do 5 right; left; reflexivity).
  split; [ exact Hp | ]. split; [ reflexivity | ].
  destruct (analysis_agrees_with_filter grid_km tape tape_randbelow
              [0%nat] town_drivers town_passengers town_heap 5%nat 1 1%nat
              Hp eq_refl) as (e & He & _ & _ & _ & Ec & _).
  exists e. split; [ exact He | ]. rewrite Ec. reflexivity.
Defined.

Lemma match_is_explained_witness :
  NoDup town_passengers
  /\ In (Match.mk 0%nat 3%nat (5 # 10) 0 ride_cost)
        (match_details (match_algorithm grid_km tape tape_randbelow [0%nat]
               town_drivers town_passengers town_heap))
  /\ exists e,
       In e (Passenger.rejection_reasons
               (psg (final_heap
                       (match_algorithm grid_km tape tape_randbelow [0%nat]
               town_drivers town_passengers town_heap))
                    3%nat))
       /\ Reason.driver_id e = 0 /\ Reason.matched e = Some true.
Proof.
  assert (Hr : In (Match.mk 0%nat 3%nat (5 # 10) 0 ride_cost)
                 (match_details
                    (match_algorithm grid_km tape tape_randbelow [0%nat]
               town_drivers town_passengers town_heap)))
    by (vm_compute; do 4 right; left; reflexivity).
  split; [ exact town_passengers_NoDup | ]. split; [ exact Hr | ].
  destruct (match_is_explained grid_km tape tape_randbelow
              [0%nat] town_drivers town_passengers town_heap _
              town_passengers_NoDup Hr) as (e & He & Ei & _ & _ & _ & _ & Em).
  exists e. split; [ exact He | ]. split; [ exact Ei | exact Em ].
Defined.

Lemma seat_accounting_witness :
  NoDup town_drivers /\ NoDup town_passengers
  /\ len (filter (is_matched
                    (final_heap
                       (run [0%nat] town_drivers town_passengers town_heap)))
                 town_passengers)
     = len (match_details (run [0%nat] town_drivers town_passengers town_heap)).
Proof.
  split; [ exact town_drivers_NoDup | ].
  split; [ exact town_passengers_NoDup | ].
  exact (proj2 (seat_accounting grid_km tape tape_randbelow
                  [0%nat] town_drivers town_passengers town_heap
                  town_drivers_NoDup town_passengers_NoDup
                  (fun d Hd => proj1 (town_drivers_fresh d Hd))
                  town_passengers_unmatched)).
Defined.

Lemma export_after_run_witness :
  town_drivers <> [] /\ NoDup town_drivers /\ NoDup town_passengers
  /\ exists st,
       export_statistics
         (drivers_after (run [0%nat] town_drivers town_passengers town_heap))
         town_passengers
         (final_heap (run [0%nat] town_drivers town_passengers town_heap))
       = Ok st
       /\ (fleet_occupancy st <= 100)%Q.
Proof.
  assert (NE : town_drivers <> []) by discriminate.
  split; [ exact NE | ]. split; [ exact town_drivers_NoDup | ].
  split; [ exact town_passengers_NoDup | ].
  destruct (export_after_run grid_km tape tape_randbelow
              [0%nat] town_drivers town_passengers town_heap NE
              town_drivers_NoDup town_passengers_NoDup town_drivers_fresh
              town_passengers_unmatched) as (st & Es & _ & _ & _ & B & _).
  exists st. split; [ exact Es | exact B ].
Defined.




Lemma diagnosis_never_witness :
  In 5%nat town_passengers
  /\ Passenger.matched_driver
       (psg (final_heap
               (match_algorithm_v2 grid_km tape tape_randbelow [0%nat]
                  town_drivers town_passengers town_heap)) 5%nat) = None
  /\ rejection_reason
       (diagnose grid_km
          (final_heap
             (match_algorithm_v2 grid_km tape tape_randbelow [0%nat]
                town_drivers town_passengers town_heap))
          (drivers_after
             (match_algorithm_v2 grid_km tape tape_randbelow [0%nat]
                town_drivers town_passengers town_heap))
          5%nat)
     <> NoCompatibleDriverFound.
Proof.
  assert (Hp : In 5%nat town_passengers) by (do 5 right; left; reflexivity).
  split; [ exact Hp | ]. split; [ reflexivity | ].
  exact (diagnosis_never_no_compatible grid_km tape tape_randbelow [0%nat]
           town_drivers town_passengers town_heap 5%nat
           town_drivers_invariant Hp eq_refl).
Defined.

Lemma v1_pairs_witness :
  Passenger.matched_driver (psg town_heap 0%nat) = None
  /\ Passenger.matched_driver
       (psg (fst (fst (match_algorithm_v1 grid_km tape tape_randbelow [0%nat]
                         town_drivers town_passengers town_heap))) 0%nat)
     = Some 0%nat
  /\ good_pair_v1 grid_km town_heap town_drivers town_passengers 0%nat 0%nat.
Proof.
  split; [ reflexivity | ]. split; [ reflexivity | ].
  exact (v1_pairs_equal_schedules grid_km tape tape_randbelow [0%nat]
           town_drivers town_passengers town_heap 0%nat 0%nat
           eq_refl eq_refl).
Defined.

Lemma back_references_witness :
  NoDup town_passengers
  /\ Driver.passengers (drv town_heap 1%nat) = []
  /\ Passenger.matched_driver (psg town_heap 0%nat) = None
  /\ In 0%nat
       (Driver.passengers
          (drv (final_heap (run [0%nat] town_drivers town_passengers town_heap))
               1%nat)).
Proof.
  split; [ exact town_passengers_NoDup | ].
  split; [ reflexivity | ]. split; [ reflexivity | ].
  apply (proj2 (back_references_consistent grid_km tape tape_randbelow
                  [0%nat] town_drivers town_passengers town_heap 1%nat 0%nat
                  town_passengers_NoDup eq_refl eq_refl)).
  reflexivity.
Defined.

(** The schedule distribution of the town: hours 8, 9 and 11. *)
Example town_schedule_distribution :
  schedule_distribution town_heap town_drivers town_passengers
  = [(8, 1, 3); (9, 1, 2); (11, 0, 1)].
Proof. reflexivity. Qed.


Lemma report_revenue_witness :
  match_details
    (match_algorithm_v2 grid_km tape tape_randbelow [0%nat] town_drivers
       town_passengers town_heap) <> []
  /\ exists total avg,
       revenue_statistics
         (drivers_after
            (match_algorithm_v2 grid_km tape tape_randbelow [0%nat]
               town_drivers town_passengers town_heap))
         (match_details
            (match_algorithm_v2 grid_km tape tape_randbelow [0%nat]
               town_drivers town_passengers town_heap))
       = Some (Ok (ride_cost, total, avg)).
Proof.
  assert (NE : match_details
                 (match_algorithm_v2 grid_km tape tape_randbelow [0%nat]
                    town_drivers town_passengers town_heap) <> [])
    by (vm_compute; discriminate).
  split; [ exact NE | ].
  destruct (proj2 (report_revenue grid_km tape tape_randbelow
                     [0%nat] town_drivers town_passengers town_heap) NE)
    as (total & avg & E & _).
  exists total, avg. exact E.
Defined.
